(** * zpp::throwing: a shallow embedding of [zpp_throwing.h]

    The header implements exceptions on top of coroutines: a fallible
    function returns [throwing<Type>], raises with [co_yield], calls other
    fallible functions with [co_await] and returns with [co_return].
    This development embeds the parts of the header that decide how an
    outcome is stored, moved between slots, matched against catch clauses
    and converted along the declared base graph.

    Conventions.
    - [int] and [void *] are integers ([Z]); the null pointer is [0].
    - A pointer to a statically allocated object (an error domain, a type
      information table) is the identity of that object.
    - Behaviour the language leaves undefined (reading an inactive union
      member, resuming a null coroutine handle) is the result [None]; so
      is a call of a function template that is ill-formed once
      instantiated, which no program contains. *)

From Stdlib Require Import ZArith List String Bool Lia.
Import ListNotations.
Open Scope Z_scope.

Set Warnings "-register-all".

(** ** Undefined behaviour as a partial result *)

Definition bind {A B : Type} (m : option A) (f : A -> option B) : option B :=
  match m with
  | Some a => f a
  | None => None
  end.

Notation "x <- m ;; k" := (bind m (fun x => k))
  (at level 61, m at next level, right associativity).
Notation "' p <- m ;; k" := (bind m (fun p => k))
  (at level 61, p pattern, m at next level, right associativity).

(** ** Error domains and errors *)

Module error_domain.

(** [class error_domain]: the two virtual members and the success code. *)
Record t : Type := make_error_domain
  { name : string;
    m_success_code : Z;
    message : Z -> string }.

(** [bool success(integral_type code) const] *)
Definition success (d : t) (code : Z) : bool :=
  code =? m_success_code d.

End error_domain.

(** The enumeration types that have an [err_domain] specialisation.  A
    [const error_domain *] is the address of one of these variable
    template instances, or null: [option enum_type]. *)
Inductive enum_type : Type :=
| throwing_error
| throwing_exception
| std_errc
| user_enum (n : nat).

Definition enum_type_eqb (a b : enum_type) : bool :=
  match a, b with
  | throwing_error, throwing_error => true
  | throwing_exception, throwing_exception => true
  | std_errc, std_errc => true
  | user_enum n, user_enum m => Nat.eqb n m
  | _, _ => false
  end.

Definition domain_ptr : Type := option enum_type.

(** [err_domain<throwing_error>] and [err_domain<throwing_exception>]: the
    same contents, told apart by their addresses only. *)
Definition err_domain_throwing_error : error_domain.t :=
  error_domain.make_error_domain EmptyString 0 (fun _ => EmptyString).

Definition err_domain_throwing_exception : error_domain.t :=
  error_domain.make_error_domain EmptyString 0 (fun _ => EmptyString).

(** [std::errc::not_enough_memory] is [ENOMEM]. *)
Definition ENOMEM : Z := 12.

Module error.

(** [class error]: a non-owning domain pointer and a code. *)
Record t : Type := make
  { m_domain : enum_type;
    m_code : Z }.

Definition domain (e : t) : enum_type := m_domain e.
Definition code (e : t) : Z := m_code e.

End error.

(** [error(std::errc::not_enough_memory)] through the enum constructor. *)
Definition not_enough_memory : error.t := error.make std_errc ENOMEM.

(** ** Type information and [dyn_cast] *)

Module detail.

(** [type_information<Type, Bases...>::info] is the static table
    [{ n, type_id<Bases>()..., make_erased_static_cast<Type, Bases>()... }].
    [id] is the address of the table (what [type_id<Type>()] returns);
    the [i]-th element of [bases] pairs the table the [i]-th base pointer
    refers to with the [i]-th cast function, so the count [n] is the
    length of the list.  The [static_assert] on [std::is_base_of_v]
    makes the graph of tables acyclic, hence a finite tree once the
    pointers are followed. *)
Inductive type_information : Type :=
| info (id : Z) (bases : list (type_information * (Z -> Z))).

Definition type_id (t : type_information) : Z :=
  match t with info id _ => id end.

Definition bases_of (t : type_information)
  : list (type_information * (Z -> Z)) :=
  match t with info _ bases => bases end.

(** [void * dyn_cast(const void * base, void * most_derived_pointer,
                     const void * most_derived)] *)
Fixpoint dyn_cast (base : Z) (most_derived_pointer : Z)
         (most_derived : type_information) {struct most_derived} : Z :=
  match most_derived with
  | info id bases =>
      if id =? base then most_derived_pointer
      else
        (fix loop (entries : list (type_information * (Z -> Z))) : Z :=
           match entries with
           | [] => 0
           | (base_info, erased_static_cast) :: rest =>
               let result :=
                 dyn_cast base (erased_static_cast most_derived_pointer)
                          base_info in
               if result =? 0 then loop rest else result
           end) bases
  end.

(** The [for] loop of [dyn_cast] on its own, for stating its equation. *)
Fixpoint dyn_cast_bases (base : Z) (most_derived_pointer : Z)
         (entries : list (type_information * (Z -> Z))) : Z :=
  match entries with
  | [] => 0
  | (base_info, erased_static_cast) :: rest =>
      let result :=
        dyn_cast base (erased_static_cast most_derived_pointer) base_info in
      if result =? 0 then dyn_cast_bases base most_derived_pointer rest
      else result
  end.

End detail.

(** [struct dynamic_object]: both members are null in
    [exception_object::null_dynamic_object]. *)
Record dynamic_object : Type := make_dynamic_object
  { type_id : option detail.type_information;
    address : Z }.

Definition null_dynamic_object : dynamic_object :=
  make_dynamic_object None 0.

(** [class exception_object], as the local [struct exception] of
    [yield_value] implements it: the capsule knows the type information
    of the value it holds and the address of that value. *)
Record exception_object : Type := make_exception_object
  { value_type : detail.type_information;
    value_address : Z }.

(** [exception::dynamic_object()] *)
Definition get_dynamic_object (e : exception_object) : dynamic_object :=
  make_dynamic_object (Some (value_type e)) (value_address e).

(** [exception_ptr<exception_object, Allocator>], a [std::unique_ptr]. *)
Definition exception_ptr : Type := option exception_object.

(** The three kinds of [Allocator] the header distinguishes:
    [void], one whose [allocate] may throw, one whose [allocate] is
    [noexcept] and reports failure by returning null. *)
Inductive allocator_kind : Type :=
| allocator_void
| allocator_throwing
| allocator_noexcept.

(** [is_noexcept_allocator] *)
Definition is_noexcept_allocator (a : allocator_kind) : bool :=
  match a with
  | allocator_noexcept => true
  | _ => false
  end.

(** [make_exception_ptr<Type, Allocator>].  With the [void] allocator
    [new] is used and yields an object.  With any other allocator the
    function is ill-formed once instantiated: its two [return]
    statements, [exception_ptr<Type, Allocator>(nullptr)] and
    [exception_ptr<exception_object, Allocator>(allocated)], have
    different types under a deduced return type, and the second builds a
    [std::unique_ptr] to [exception_object] from the allocator's byte
    pointer.  No program contains such a call, whatever [allocated], the
    answer of [allocate], would be. *)
Definition make_exception_ptr (a : allocator_kind) (allocated : bool)
           (e : exception_object) : option exception_ptr :=
  match a with
  | allocator_void => Some (Some e)
  | allocator_throwing => None
  | allocator_noexcept => None
  end.

(** ** The promised value *)

Module promised_value.

(** The anonymous union of [promised_value]: which member is alive. *)
Inductive storage (Type_ : Type) : Type :=
| error_code_member (code : Z)
| exception_member (e : exception_ptr)
| value_member (v : Type_).

Arguments error_code_member {Type_} code.
Arguments exception_member {Type_} e.
Arguments value_member {Type_} v.

(** [struct promised_value<Type, ExceptionType, Allocator>] with
    [ExceptionType = exception_ptr<exception_object, Allocator>]. *)
Record t (Type_ : Type) : Type := make
  { m_error_domain : domain_ptr;
    m_storage : storage Type_ }.

Arguments make {Type_} m_error_domain m_storage.
Arguments m_error_domain {Type_} _.
Arguments m_storage {Type_} _.

Section Members.
Context {Type_ : Type}.

(** Reads of a union member; reading a member that is not alive is
    undefined. *)
Definition m_error_code (p : t Type_) : option Z :=
  match m_storage p with
  | error_code_member c => Some c
  | _ => None
  end.

Definition m_exception (p : t Type_) : option exception_ptr :=
  match m_storage p with
  | exception_member e => Some e
  | _ => None
  end.

Definition m_value (p : t Type_) : option Type_ :=
  match m_storage p with
  | value_member v => Some v
  | _ => None
  end.

(** [promised_value()]: the domain pointer is set by the constructor,
    the union by the initializer of its first member,
    [int m_error_code{}]. *)
Definition default : t Type_ :=
  make (Some throwing_error) (error_code_member 0).

(** [bool has_exception() const noexcept] *)
Definition has_exception (p : t Type_) : bool :=
  match m_error_domain p with
  | Some d => enum_type_eqb d throwing_exception
  | None => false
  end.

(** [bool has_value() const noexcept] *)
Definition has_value (p : t Type_) : bool :=
  match m_error_domain p with
  | Some _ => false
  | None => true
  end.

(** [bool has_error() const noexcept] *)
Definition has_error (p : t Type_) : bool :=
  negb (has_value p) && negb (has_exception p).

(** [auto is_rethrow() const noexcept]: [&&] reads [m_exception] only
    when [has_exception()] holds. *)
Definition is_rethrow (p : t Type_) : option bool :=
  if has_exception p then
    e <- m_exception p ;;
    Some (match e with None => true | Some _ => false end)
  else Some false.

(** [value()] *)
Definition value (p : t Type_) : option Type_ := m_value p.

(** [auto & exception() noexcept]: dereferences the pointer. *)
Definition exception (p : t Type_) : option exception_object :=
  e <- m_exception p ;; e.

(** [error get_error() const noexcept]: dereferences the domain
    pointer. *)
Definition get_error (p : t Type_) : option error.t :=
  d <- m_error_domain p ;;
  c <- m_error_code p ;;
  Some (error.make d c).

(** [set_value(auto && other)] and, with [Type_ = unit], [set_value()] *)
Definition set_value (p : t Type_) (other : Type_) : t Type_ :=
  make None (value_member other).

(** [void set_error(const error & error) noexcept] *)
Definition set_error (p : t Type_) (e : error.t) : t Type_ :=
  make (Some (error.domain e)) (error_code_member (error.code e)).

(** [auto set_exception(ExceptionType exception) noexcept] *)
Definition set_exception (a : allocator_kind) (p : t Type_)
           (exception : exception_ptr) : t Type_ :=
  let p1 := make (Some throwing_exception) (exception_member exception) in
  match a with
  | allocator_void => p1
  | allocator_noexcept =>
      match exception with
      | None => set_error p1 not_enough_memory
      | Some _ => p1
      end
  | allocator_throwing => p1
  end.

(** [void rethrow() noexcept] *)
Definition rethrow (p : t Type_) : t Type_ :=
  make (Some throwing_exception) (exception_member None).

End Members.

(** [void propagate(auto && other) noexcept]: returns the new [*this]
    and what is left in [other].  [ExceptionType] is a [std::unique_ptr],
    which is not trivially destructible, so the exception pointer is
    move-constructed and [other] keeps a null pointer; the error code is
    copied.  [other.m_error_domain] is only read. *)
Definition propagate {Type_ Other : Type} (p : t Type_) (other : t Other)
  : option (t Type_ * t Other) :=
  if has_exception other then
    e <- m_exception other ;;
    Some (make (m_error_domain other) (exception_member e),
          make (m_error_domain other) (exception_member None))
  else
    c <- m_error_code other ;;
    Some (make (m_error_domain other) (error_code_member c), other).

(** [promised_value(promised_value && other)]: the new object and what
    is left in [other]. *)
Definition move {Type_ : Type} (other : t Type_)
  : option (t Type_ * t Type_) :=
  if has_value other then
    v <- m_value other ;;
    Some (make None (value_member v), other)
  else if has_exception other then
    e <- m_exception other ;;
    Some (make (m_error_domain other) (exception_member e),
          make (m_error_domain other) (exception_member None))
  else
    c <- m_error_code other ;;
    Some (make (m_error_domain other) (error_code_member c), other).

(** The tag and the live union member agree. *)
Definition consistent {Type_ : Type} (p : t Type_) : Prop :=
  match m_error_domain p, m_storage p with
  | None, value_member _ => True
  | Some throwing_exception, exception_member _ => True
  | Some throwing_exception, _ => False
  | Some _, error_code_member _ => True
  | _, _ => False
  end.

(** What a [std::unique_ptr] frees when it is destroyed or overwritten. *)
Definition capsule_of (e : exception_ptr) : list exception_object :=
  match e with
  | Some capsule => [capsule]
  | None => []
  end.

(** [~promised_value()], as the capsules it frees.  [ExceptionType] is
    not trivially destructible, so every [if constexpr] alternative
    destroys [m_exception] exactly when [has_exception()] holds; the
    destructor of the value frees no capsule. *)
Definition destructor {Type_ : Type} (p : t Type_)
  : option (list exception_object) :=
  if has_value p then Some []
  else if has_exception p then
    e <- m_exception p ;; Some (capsule_of e)
  else Some [].

(** [promised_value & operator=(promised_value && other)] on two
    distinct objects: the new [*this], what is left in [other], and the
    capsules freed on the way. *)
Definition move_assign {Type_ : Type} (this other : t Type_)
  : option (t Type_ * t Type_ * list exception_object) :=
  if has_value other then
    v <- m_value other ;;
    if has_value this then
      Some (make (m_error_domain this) (value_member v), other, [])
    else
      freed <-
        (if has_exception this then
           e <- m_exception this ;; Some (capsule_of e)
         else Some []) ;;
      Some (make None (value_member v), other, freed)
  else if has_exception other then
    e <- m_exception other ;;
    freed <-
      (if has_exception this then
         old <- m_exception this ;; Some (capsule_of old)
       else Some []) ;;
    Some (make (m_error_domain other) (exception_member e),
          make (m_error_domain other) (exception_member None),
          freed)
  else
    freed <-
      (if has_exception this then
         old <- m_exception this ;; Some (capsule_of old)
       else Some []) ;;
    c <- m_error_code other ;;
    Some (make (m_error_domain other) (error_code_member c), other, freed).

End promised_value.

(** ** Coroutine bodies and [throwing] *)

(** What a run leaves behind, in order: the labelled statements of the
    bodies that were executed and the catch clauses that were called
    (by position in the clause list). *)
Inductive event : Type :=
| executed (label : nat)
| invoked (clause_index : nat).

Module throwing.

(** The body of a function returning [throwing<Type_>], from the point
    of view of its promise.  Every [co_yield] overload of
    [basic_promise_type] returns [suspend_always] and no handle is
    resumed twice, so a [co_yield] ends the run of the body.  A
    coroutine handle is [option body]; [None] is the null handle that
    [get_return_object_on_allocation_failure] produces. *)
Inductive body (Type_ : Type) : Type :=
| co_return (v : Type_)
| co_yield_exception (allocated : bool) (value : exception_object)
| co_yield_tie_rethrow (Other : Type) (exception : promised_value.t Other)
| co_yield_rethrow
| co_yield_error (e : error.t)
| statement (ev : event) (rest : body Type_)
| co_await (Other : Type) (awaited : option (body Other))
           (rest : Other -> body Type_)
| make_result (Other : Type) (called : option (body Other))
              (rest : promised_value.t Other -> body Type_)
| undefined.

Arguments co_return {Type_} v.
Arguments co_yield_exception {Type_} allocated value.
Arguments co_yield_tie_rethrow {Type_ Other} exception.
Arguments co_yield_rethrow {Type_}.
Arguments co_yield_error {Type_} e.
Arguments statement {Type_} ev rest.
Arguments co_await {Type_ Other} awaited rest.
Arguments make_result {Type_ Other} called rest.
Arguments undefined {Type_}.

Definition t (Type_ : Type) : Type := option (body Type_).

Section Awaiter.
Context {Type_ Outer : Type}.
Variable a : allocator_kind.

(** [await_ready], given what [m_handle.resume()] leaves in the
    promise of the awaited coroutine ([None] for a null handle). *)
Definition await_ready (promise : option (promised_value.t Type_))
  : option bool :=
  match promise with
  | None => if is_noexcept_allocator a then Some false else None
  | Some value => Some (promised_value.has_value value)
  end.

(** [await_suspend]: the new value of the outer promise. *)
Definition await_suspend (promise : option (promised_value.t Type_))
           (outer : promised_value.t Outer)
  : option (promised_value.t Outer) :=
  match promise with
  | None =>
      if is_noexcept_allocator a
      then Some (promised_value.set_error outer not_enough_memory)
      else None
  | Some value =>
      r <- promised_value.is_rethrow value ;;
      if negb r then
        '(outer', _) <- promised_value.propagate outer value ;;
        Some outer'
      else Some outer
  end.

(** [await_resume] *)
Definition await_resume (promise : option (promised_value.t Type_))
  : option Type_ :=
  value <- promise ;; promised_value.value value.

End Awaiter.

(** [invoke], given what [m_handle.resume()] leaves in the promise. *)
Definition invoke {Type_ : Type} (a : allocator_kind)
           (promise : option (promised_value.t Type_))
  : option (promised_value.t Type_) :=
  match promise with
  | None =>
      if is_noexcept_allocator a
      then Some (promised_value.set_error promised_value.default
                                          not_enough_memory)
      else None
  | Some value =>
      '(moved, _) <- promised_value.move value ;; Some moved
  end.

(** [m_handle.resume()] on a coroutine that has not started: runs the
    body up to its first suspension and returns the promise's
    [m_value] with the events of the run. *)
Fixpoint resume (a : allocator_kind) (Type_ : Type) (b : body Type_)
  : option (promised_value.t Type_ * list event) :=
  let m_value := @promised_value.default Type_ in
  match b with
  | co_return v => Some (promised_value.set_value m_value v, [])
  | co_yield_exception allocated value =>
      exception <- make_exception_ptr a allocated value ;;
      Some (promised_value.set_exception a m_value exception, [])
  | co_yield_tie_rethrow exception =>
      '(m_value', _) <- promised_value.propagate m_value exception ;;
      Some (m_value', [])
  | co_yield_rethrow => Some (promised_value.rethrow m_value, [])
  | co_yield_error e => Some (promised_value.set_error m_value e, [])
  | statement ev rest =>
      '(p, evs) <- resume a Type_ rest ;; Some (p, ev :: evs)
  | @co_await _ Other awaited rest =>
      '(promise, evs) <-
        match awaited with
        | None => Some (None, [])
        | Some nested =>
            '(p, evs) <- resume a Other nested ;; Some (Some p, evs)
        end ;;
      ready <- await_ready a promise ;;
      if ready then
        v <- await_resume promise ;;
        '(p, evs') <- resume a Type_ (rest v) ;;
        Some (p, evs ++ evs')
      else
        m_value' <- await_suspend a promise m_value ;;
        Some (m_value', evs)
  | @make_result _ Other called rest =>
      '(promise, evs) <-
        match called with
        | None => Some (None, [])
        | Some nested =>
            '(p, evs) <- resume a Other nested ;; Some (Some p, evs)
        end ;;
      catch_result <- invoke a promise ;;
      '(p, evs') <- resume a Type_ (rest catch_result) ;;
      Some (p, evs ++ evs')
  | undefined => None
  end.

Arguments resume a {Type_} b.

End throwing.

(** ** Results and catch clauses *)

Module result.

Import throwing.

(** [detail::catch_value_type_t<Clause>] and the [requires] test on
    [m_value.get_error()]: what a clause declares as its parameter. *)
Inductive catch_type : Type :=
| catch_all
| catch_error
| catch_object (CatchType : detail.type_information).

(** What a clause is called with. *)
Inductive catch_argument : Type :=
| no_argument
| error_argument (e : error.t)
| object_argument (catch_object : Z).

(** [IsThrowing]: whether calling the clause yields a [throwing]. *)
Inductive clause_function (Type_ : Type) : Type :=
| returns_value (f : catch_argument -> Type_)
| returns_throwing (f : catch_argument -> throwing.t Type_).

Arguments returns_value {Type_} f.
Arguments returns_throwing {Type_} f.

Record clause (Type_ : Type) : Type := make_clause
  { declared : catch_type;
    function : clause_function Type_ }.

Arguments make_clause {Type_} declared function.
Arguments declared {Type_} _.
Arguments function {Type_} _.

Section Overloads.
Context {Type_ : Type}.

Definition is_throwing (c : clause Type_) : bool :=
  match function c with
  | returns_throwing _ => true
  | returns_value _ => false
  end.

Definition is_catch_all (c : clause Type_) : bool :=
  match declared c with
  | catch_all => true
  | _ => false
  end.

Fixpoint last_is_catch_all (clauses : list (clause Type_)) : bool :=
  match clauses with
  | [] => false
  | [c] => is_catch_all c
  | _ :: rest => last_is_catch_all rest
  end.

(** The [requires] clause that selects the overload returning
    [throwing<Type, Allocator>]. *)
Definition throwing_overload (clauses : list (clause Type_)) : bool :=
  existsb is_throwing clauses || negb (last_is_catch_all clauses).

End Overloads.

Section Catches.
Context {Type_ : Type}.

(** [result::m_value] *)
Variable m_value : promised_value.t Type_.

(** [catch_object] as both overloads compute it. *)
Definition cast_exception (CatchType : detail.type_information)
           (exception : dynamic_object) : option Z :=
  if address exception =? 0 then Some 0
  else
    most_derived <- type_id exception ;;
    Some (detail.dyn_cast (detail.type_id CatchType)
                          (address exception) most_derived).

(** [catch_exception_object], the overload for clauses that do not
    throw.  [clauses] is the pack [Clause, Clauses...]; [index] is the
    position of [Clause] in the list [catches] was called with and only
    labels the event.  The [static_assert]s reject a catch-all that is
    not last and a list without a trailing catch-all; a clause returning
    a [throwing] never reaches this overload. *)
Fixpoint catch_exception_object_nothrow (exception : dynamic_object)
         (index : nat) (clauses : list (clause Type_))
  : option (Type_ * list event) :=
  match clauses with
  | [] => None
  | c :: rest =>
      match function c with
      | returns_throwing _ => None
      | returns_value f =>
          match declared c with
          | catch_all =>
              match rest with
              | [] => Some (f no_argument, [invoked index])
              | _ :: _ => None
              end
          | catch_error =>
              if negb (address exception =? 0) then
                catch_exception_object_nothrow exception (S index) rest
              else
                e <- promised_value.get_error m_value ;;
                Some (f (error_argument e), [invoked index])
          | catch_object CatchType =>
              object <- cast_exception CatchType exception ;;
              if object =? 0 then
                catch_exception_object_nothrow exception (S index) rest
              else
                Some (f (object_argument object), [invoked index])
          end
      end
  end.

(** The tail of each branch of the throwing overload: call the
    clause and turn its outcome into the outcome of the coroutine. *)
Definition call_clause (index : nat) (c : clause Type_)
           (argument : catch_argument) : body Type_ :=
  statement (invoked index)
    match function c with
    | returns_throwing f =>
        make_result (f argument) (fun catch_result =>
          match promised_value.is_rethrow catch_result with
          | None => undefined
          | Some true => co_yield_tie_rethrow m_value
          | Some false =>
              if negb (promised_value.has_value catch_result)
              then co_yield_tie_rethrow catch_result
              else
                match promised_value.value catch_result with
                | Some v => co_return v
                | None => undefined
                end
          end)
    | returns_value f => co_return (f argument)
    end.

(** Replays the events of a call that is not a coroutine. *)
Definition returned (r : option (Type_ * list event)) : body Type_ :=
  match r with
  | Some (v, evs) => fold_right statement (co_return v) evs
  | None => undefined
  end.

(** [catch_exception_object], the overload for clauses that may
    throw; a coroutine.  [try_next] is the code under
    [if (exception.address)] and [if (!catch_object)]: the call on the
    remaining clauses, awaited when it resolves to this overload and
    returned directly when it resolves to the other one, or the rethrow
    of [m_value] when no clause remains. *)
Fixpoint catch_exception_object_throwing (exception : dynamic_object)
         (index : nat) (clauses : list (clause Type_))
  : body Type_ :=
  match clauses with
  | [] => undefined
  | c :: rest =>
      let try_next :=
        match rest with
        | [] => co_yield_tie_rethrow m_value
        | _ :: _ =>
            if throwing_overload rest then
              co_await
                (Some (catch_exception_object_throwing
                         exception (S index) rest))
                co_return
            else
              returned (catch_exception_object_nothrow
                          exception (S index) rest)
        end in
      match declared c with
      | catch_all =>
          match rest with
          | [] => call_clause index c no_argument
          | _ :: _ => undefined
          end
      | catch_error =>
          if negb (address exception =? 0) then try_next
          else
            match promised_value.get_error m_value with
            | Some e => call_clause index c (error_argument e)
            | None => undefined
            end
      | catch_object CatchType =>
          match cast_exception CatchType exception with
          | None => undefined
          | Some object =>
              if object =? 0 then try_next
              else call_clause index c (object_argument object)
          end
      end
  end.

(** The lambda both [catches] overloads pass as first argument. *)
Definition active_exception : option dynamic_object :=
  if promised_value.has_exception m_value then
    e <- promised_value.exception m_value ;;
    Some (get_dynamic_object e)
  else Some null_dynamic_object.

(** [catches], the overload returning [throwing<Type, Allocator>]. *)
Definition catches_throwing (clauses : list (clause Type_))
  : body Type_ :=
  if promised_value.has_value m_value then
    match promised_value.value m_value with
    | Some v => co_return v
    | None => undefined
    end
  else
    match active_exception with
    | Some exception =>
        co_await
          (Some (catch_exception_object_throwing exception 0 clauses))
          co_return
    | None => undefined
    end.

(** [catches], the overload returning [Type]. *)
Definition catches_nothrow (clauses : list (clause Type_))
  : option (Type_ * list event) :=
  if promised_value.has_value m_value then
    v <- promised_value.value m_value ;; Some (v, [])
  else
    exception <- active_exception ;;
    catch_exception_object_nothrow exception 0 clauses.

End Catches.

(** [result::success()] and [result::failure()] *)
Definition success {Type_ : Type} (m_value : promised_value.t Type_)
  : bool :=
  promised_value.has_value m_value.

Definition failure {Type_ : Type} (m_value : promised_value.t Type_)
  : bool :=
  negb (promised_value.has_value m_value).


End result.

(** [try_catch(try_clause, catch_clause...)] when [catches] returns a
    [throwing]: itself a coroutine. *)
Definition try_catch_throwing {Type_ : Type}
           (try_clause : throwing.t Type_)
           (catch_clause : list (result.clause Type_))
  : throwing.body Type_ :=
  throwing.make_result try_clause (fun m_value =>
    throwing.co_await
      (Some (result.catches_throwing m_value catch_clause))
      throwing.co_return).

(** [try_catch(try_clause, catch_clause...)] when [catches] returns a
    plain [Type]: an ordinary function, as called from [main]. *)
Definition try_catch_nothrow {Type_ : Type} (a : allocator_kind)
           (try_clause : throwing.t Type_)
           (catch_clause : list (result.clause Type_))
  : option (Type_ * list event) :=
  '(promise, evs) <-
    match try_clause with
    | None => Some (None, [])
    | Some b => '(p, evs) <- throwing.resume a b ;; Some (Some p, evs)
    end ;;
  m_value <- throwing.invoke a promise ;;
  '(v, evs') <- result.catches_nothrow m_value catch_clause ;;
  Some (v, evs ++ evs').

(** ** The exceptions the header defines, and the example program *)

Module std.

Import detail.

(** Addresses of the [info] tables; any distinct non-null values do. *)
Definition exception : type_information := info 1000 [].
Definition runtime_error : type_information :=
  info 1008 [(exception, fun p => p)].
Definition range_error : type_information :=
  info 1016 [(runtime_error, fun p => p)].
Definition overflow_error : type_information :=
  info 1024 [(runtime_error, fun p => p)].
Definition underflow_error : type_information :=
  info 1032 [(runtime_error, fun p => p)].
Definition logic_error : type_information :=
  info 1040 [(exception, fun p => p)].
Definition invalid_argument : type_information :=
  info 1048 [(logic_error, fun p => p)].
Definition domain_error : type_information :=
  info 1056 [(logic_error, fun p => p)].
Definition length_error : type_information :=
  info 1064 [(logic_error, fun p => p)].
Definition out_of_range : type_information :=
  info 1072 [(logic_error, fun p => p)].
Definition bad_alloc : type_information :=
  info 1080 [(exception, fun p => p)].
Definition bad_weak_ptr : type_information :=
  info 1088 [(exception, fun p => p)].
Definition bad_exception : type_information :=
  info 1096 [(exception, fun p => p)].
Definition bad_cast : type_information :=
  info 1104 [(exception, fun p => p)].

(** Every type the header gives a [define_exception] for. *)
Definition declared : list type_information :=
  [ exception; runtime_error; range_error; overflow_error; underflow_error;
    logic_error; invalid_argument; domain_error; length_error; out_of_range;
    bad_alloc; bad_weak_ptr; bad_exception; bad_cast ].

End std.

(** ** The [std::errc] error domain *)

Module errc.

(** The enumerators of [std::errc] the message function names.  Where
    the platform gives two of them one value ([ENOTSUP] and
    [EOPNOTSUPP], [EAGAIN] and [EWOULDBLOCK]) the header leaves one
    [case] out; both cases return the same text. *)
Inductive t : Type :=
| address_family_not_supported
| address_in_use
| address_not_available
| already_connected
| argument_list_too_long
| argument_out_of_domain
| bad_address
| bad_file_descriptor
| bad_message
| broken_pipe
| connection_aborted
| connection_already_in_progress
| connection_refused
| connection_reset
| cross_device_link
| destination_address_required
| device_or_resource_busy
| directory_not_empty
| executable_format_error
| file_exists
| file_too_large
| filename_too_long
| function_not_supported
| host_unreachable
| identifier_removed
| illegal_byte_sequence
| inappropriate_io_control_operation
| interrupted
| invalid_argument
| invalid_seek
| io_error
| is_a_directory
| message_size
| network_down
| network_reset
| network_unreachable
| no_buffer_space
| no_child_process
| no_link
| no_lock_available
| no_message
| no_protocol_option
| no_space_on_device
| no_stream_resources
| no_such_device_or_address
| no_such_device
| no_such_file_or_directory
| no_such_process
| not_a_directory
| not_a_socket
| not_a_stream
| not_connected
| not_enough_memory
| not_supported
| operation_canceled
| operation_in_progress
| operation_not_permitted
| operation_not_supported
| operation_would_block
| owner_dead
| permission_denied
| protocol_error
| protocol_not_supported
| read_only_file_system
| resource_deadlock_would_occur
| resource_unavailable_try_again
| result_out_of_range
| state_not_recoverable
| stream_timeout
| text_file_busy
| timed_out
| too_many_files_open_in_system
| too_many_files_open
| too_many_links
| too_many_symbolic_link_levels
| value_too_large
| wrong_protocol_type.

(** The lambda given to [make_error_domain] for [std::errc]: [None] is a
    code that is no enumerator and takes the [default] branch. *)
Definition messages (code : option t) : string :=
  match code with
  | Some address_family_not_supported =>
      "Address family not supported by protocol"
  | Some address_in_use =>
      "Address already in use"
  | Some address_not_available =>
      "Cannot assign requested address"
  | Some already_connected =>
      "Transport endpoint is already connected"
  | Some argument_list_too_long =>
      "Argument list too long"
  | Some argument_out_of_domain =>
      "Numerical argument out of domain"
  | Some bad_address =>
      "Bad address"
  | Some bad_file_descriptor =>
      "Bad file descriptor"
  | Some bad_message =>
      "Bad message"
  | Some broken_pipe =>
      "Broken pipe"
  | Some connection_aborted =>
      "Software caused connection abort"
  | Some connection_already_in_progress =>
      "Operation already in progress"
  | Some connection_refused =>
      "Connection refused"
  | Some connection_reset =>
      "Connection reset by peer"
  | Some cross_device_link =>
      "Invalid cross-device link"
  | Some destination_address_required =>
      "Destination address required"
  | Some device_or_resource_busy =>
      "Device or resource busy"
  | Some directory_not_empty =>
      "Directory not empty"
  | Some executable_format_error =>
      "Exec format error"
  | Some file_exists =>
      "File exists"
  | Some file_too_large =>
      "File too large"
  | Some filename_too_long =>
      "File name too long"
  | Some function_not_supported =>
      "Function not implemented"
  | Some host_unreachable =>
      "No route to host"
  | Some identifier_removed =>
      "Identifier removed"
  | Some illegal_byte_sequence =>
      "Invalid or incomplete multibyte or wide character"
  | Some inappropriate_io_control_operation =>
      "Inappropriate ioctl for device"
  | Some interrupted =>
      "Interrupted system call"
  | Some invalid_argument =>
      "Invalid argument"
  | Some invalid_seek =>
      "Illegal seek"
  | Some io_error =>
      "Input/output error"
  | Some is_a_directory =>
      "Is a directory"
  | Some message_size =>
      "Message too long"
  | Some network_down =>
      "Network is down"
  | Some network_reset =>
      "Network dropped connection on reset"
  | Some network_unreachable =>
      "Network is unreachable"
  | Some no_buffer_space =>
      "No buffer space available"
  | Some no_child_process =>
      "No child processes"
  | Some no_link =>
      "Link has been severed"
  | Some no_lock_available =>
      "No locks available"
  | Some no_message =>
      "No message of desired type"
  | Some no_protocol_option =>
      "Protocol not available"
  | Some no_space_on_device =>
      "No space left on device"
  | Some no_stream_resources =>
      "Out of streams resources"
  | Some no_such_device_or_address =>
      "No such device or address"
  | Some no_such_device =>
      "No such device"
  | Some no_such_file_or_directory =>
      "No such file or directory"
  | Some no_such_process =>
      "No such process"
  | Some not_a_directory =>
      "Not a directory"
  | Some not_a_socket =>
      "Socket operation on non-socket"
  | Some not_a_stream =>
      "Device not a stream"
  | Some not_connected =>
      "Transport endpoint is not connected"
  | Some not_enough_memory =>
      "Cannot allocate memory"
  | Some not_supported =>
      "Operation not supported"
  | Some operation_canceled =>
      "Operation canceled"
  | Some operation_in_progress =>
      "Operation now in progress"
  | Some operation_not_permitted =>
      "Operation not permitted"
  | Some operation_not_supported =>
      "Operation not supported"
  | Some operation_would_block =>
      "Resource temporarily unavailable"
  | Some owner_dead =>
      "Owner died"
  | Some permission_denied =>
      "Permission denied"
  | Some protocol_error =>
      "Protocol error"
  | Some protocol_not_supported =>
      "Protocol not supported"
  | Some read_only_file_system =>
      "Read-only file system"
  | Some resource_deadlock_would_occur =>
      "Resource deadlock avoided"
  | Some resource_unavailable_try_again =>
      "Resource temporarily unavailable"
  | Some result_out_of_range =>
      "Numerical result out of range"
  | Some state_not_recoverable =>
      "State not recoverable"
  | Some stream_timeout =>
      "Timer expired"
  | Some text_file_busy =>
      "Text file busy"
  | Some timed_out =>
      "Connection timed out"
  | Some too_many_files_open_in_system =>
      "Too many open files in system"
  | Some too_many_files_open =>
      "Too many open files"
  | Some too_many_links =>
      "Too many links"
  | Some too_many_symbolic_link_levels =>
      "Too many levels of symbolic links"
  | Some value_too_large =>
      "Value too large for defined data type"
  | Some wrong_protocol_type =>
      "Protocol wrong type for socket"
  | None => "Unspecified error"
  end.

End errc.

(** [err_domain<std::errc>].  [enumerator] is the platform's numbering:
    the enumerator, if any, whose value is the given code. *)
Definition err_domain_errc (enumerator : Z -> option errc.t)
  : error_domain.t :=
  error_domain.make_error_domain
    "std::errc" 0 (fun code => errc.messages (enumerator code)).

(** [err_domain<ErrorCode>]: the domain object behind each address;
    [user] stands for the specialisations of the program. *)
Definition err_domain (enumerator : Z -> option errc.t)
           (user : nat -> error_domain.t) (t : enum_type)
  : error_domain.t :=
  match t with
  | throwing_error => err_domain_throwing_error
  | throwing_exception => err_domain_throwing_exception
  | std_errc => err_domain_errc enumerator
  | user_enum n => user n
  end.

Section ErrorMembers.
Variable enumerator : Z -> option errc.t.
Variable user : nat -> error_domain.t.

(** [error::message()] *)
Definition error_message (e : error.t) : string :=
  error_domain.message (err_domain enumerator user (error.m_domain e))
                       (error.m_code e).

(** [error::success()] and [explicit operator bool()] *)
Definition error_success (e : error.t) : bool :=
  error_domain.success (err_domain enumerator user (error.m_domain e))
                       (error.m_code e).

(** [error::failure()] *)
Definition error_failure (e : error.t) : bool :=
  negb (error_domain.success (err_domain enumerator user (error.m_domain e))
                             (error.m_code e)).

End ErrorMembers.


Module example.

Import throwing result.

(** [zpp::throwing<int> foo(bool success)] of [zpp.cc]; the exception
    value lives at [object]. *)
Definition foo (object : Z) (success : bool) : throwing.t Z :=
  Some (if negb success
        then co_yield_exception
               true (make_exception_object std.runtime_error object)
        else co_return 1337).

(** The lambda [main] passes as try clause, called with [foo]'s
    argument made a parameter.  Statement 0 prints the greeting,
    statement 1 prints the awaited value. *)
Definition try_clause (object : Z) (success : bool) : throwing.t Z :=
  Some (statement (executed 0)
          (co_await (foo object success) (fun v =>
             statement (executed 1) (co_return 0)))).

(** The two catch clauses of [main]. *)
Definition catch_clauses : list (clause Z) :=
  [ make_clause (catch_object std.exception) (returns_value (fun _ => 1));
    make_clause catch_all (returns_value (fun _ => 1)) ].

(** A chain of declared bases [D -> C -> B -> A], an unrelated [X]. *)
Definition A : detail.type_information := detail.info 2000 [].
Definition B : detail.type_information :=
  detail.info 2008 [(A, fun p => p)].
Definition C : detail.type_information :=
  detail.info 2016 [(B, fun p => p)].
Definition D : detail.type_information :=
  detail.info 2024 [(C, fun p => p)].
Definition X : detail.type_information := detail.info 2032 [].

(** A diamond without virtual bases: [Bottom] declares [Left] and
    [Right], both declare [Top].  The [Right] sub-object starts 16
    bytes into [Bottom], so the two [Top] sub-objects differ. *)
Definition Top : detail.type_information := detail.info 3000 [].
Definition Left : detail.type_information :=
  detail.info 3008 [(Top, fun p => p)].
Definition Right : detail.type_information :=
  detail.info 3016 [(Top, fun p => p)].
Definition Bottom : detail.type_information :=
  detail.info 3024 [(Left, fun p => p); (Right, fun p => p + 16)].

(** The slot of a result whose coroutine raised a [std::runtime_error]
    living at [object]. *)
Definition raised (object : Z) : promised_value.t Z :=
  promised_value.set_exception
    allocator_void promised_value.default
    (Some (make_exception_object std.runtime_error object)).

(** An error clause, a clause for [std::exception] and a catch-all. *)
Definition ordered_clauses : list (clause Z) :=
  [ make_clause catch_error (returns_value (fun _ => 2));
    make_clause (catch_object std.exception) (returns_value (fun _ => 1));
    make_clause catch_all (returns_value (fun _ => 3)) ].

(** A clause for [std::exception] that ends in [co_yield zpp::rethrow]
    after a statement. *)
Definition rethrowing_clauses : list (clause Z) :=
  [ make_clause catch_error (returns_value (fun _ => 2));
    make_clause (catch_object std.exception)
                (returns_throwing (fun _ =>
                   Some (statement (executed 7) co_yield_rethrow))) ].

(** A clause for [std::exception] that raises a [std::logic_error]
    living at 8192. *)
Definition raising_clauses : list (clause Z) :=
  [ make_clause (catch_object std.exception)
                (returns_throwing (fun _ =>
                   Some (co_yield_exception
                           true
                           (make_exception_object std.logic_error 8192)))) ].

Definition main (object : Z) (success : bool)
  : option (Z * list event) :=
  try_catch_nothrow allocator_void (try_clause object success)
                    catch_clauses.

End example.

(** ** Vocabulary of the statements *)

(** [target] is the type itself or is reached from it along declared
    bases. *)
Inductive declared_base_path : detail.type_information -> Z -> Prop :=
| path_here (t : detail.type_information) :
    declared_base_path t (detail.type_id t)
| path_through (id : Z) (bases : list (detail.type_information * (Z -> Z)))
               (base_info : detail.type_information) (cast : Z -> Z)
               (target : Z) :
    In (base_info, cast) bases ->
    declared_base_path base_info target ->
    declared_base_path (detail.info id bases) target.

(** Every cast function of the table and of the tables below it maps
    non-null pointers to non-null pointers, as [static_cast] does. *)
Inductive non_null_casts : detail.type_information -> Prop :=
| non_null_casts_info (id : Z)
                      (bases : list (detail.type_information * (Z -> Z))) :
    Forall (fun entry =>
              (forall p, p <> 0 -> snd entry p <> 0) /\
              non_null_casts (fst entry)) bases ->
    non_null_casts (detail.info id bases).

(** The first non-null pointer of a list, null when there is none. *)
Definition first_non_null (results : list Z) : Z :=
  match find (fun r => negb (r =? 0)) results with
  | Some r => r
  | None => 0
  end.

(** Two slots, possibly of different value types, hold the same
    failure: same domain pointer, same code, same exception pointer. *)
Definition same_failure {Type_ Other : Type}
           (p : promised_value.t Type_) (q : promised_value.t Other) : Prop :=
  promised_value.m_error_domain p = promised_value.m_error_domain q /\
  promised_value.m_error_code p = promised_value.m_error_code q /\
  promised_value.m_exception p = promised_value.m_exception q.

(** A slot as a finished coroutine leaves it for its caller: tag and
    union member agree, and it is not the rethrow marker. *)
Definition settled {Type_ : Type} (p : promised_value.t Type_) : Prop :=
  promised_value.consistent p /\
  promised_value.is_rethrow p = Some false.

Section Dispatch.
Context {Type_ : Type}.
Variable a : allocator_kind.
Variable m_value : promised_value.t Type_.

(** The test each branch of [catch_exception_object] makes before it
    calls its clause. *)
Definition clause_matches (exception : dynamic_object)
           (c : result.clause Type_) : bool :=
  match result.declared c with
  | result.catch_all => true
  | result.catch_error => address exception =? 0
  | result.catch_object CatchType =>
      match result.cast_exception CatchType exception with
      | Some object => negb (object =? 0)
      | None => false
      end
  end.

(** What the clause is called with when it matches. *)
Definition clause_argument (exception : dynamic_object)
           (c : result.clause Type_) : option result.catch_argument :=
  match result.declared c with
  | result.catch_all => Some result.no_argument
  | result.catch_error =>
      e <- promised_value.get_error m_value ;;
      Some (result.error_argument e)
  | result.catch_object CatchType =>
      object <- result.cast_exception CatchType exception ;;
      Some (result.object_argument object)
  end.


(** The clause called on its own: a plain value is reported as a slot
    holding it, a coroutine is run and its promise moved out, as the
    constructor of [result] does. *)
Definition clause_outcome (c : result.clause Type_)
           (argument : result.catch_argument)
  : option (promised_value.t Type_ * list event) :=
  match result.function c with
  | result.returns_value f =>
      Some (promised_value.set_value promised_value.default (f argument),
            [])
  | result.returns_throwing f =>
      '(promise, evs) <-
        match f argument with
        | None => Some (None, [])
        | Some b => '(p, evs) <- throwing.resume a b ;; Some (Some p, evs)
        end ;;
      catch_result <- throwing.invoke a promise ;;
      Some (catch_result, evs)
  end.

(** What the slot of the dispatching coroutine holds after the clause
    was called: the original failure when the clause rethrows, else
    what the clause produced. *)
Definition after_clause (r : promised_value.t Type_)
  : promised_value.t Type_ :=
  match promised_value.is_rethrow r with
  | Some true => m_value
  | _ => r
  end.

(** [catch_exception_object] as overload resolution selects it, run to
    its outcome; the value of the non-throwing overload is reported as
    a slot holding it. *)
Definition catch_exception_object (exception : dynamic_object)
           (index : nat) (clauses : list (result.clause Type_))
  : option (promised_value.t Type_ * list event) :=
  if result.throwing_overload clauses then
    throwing.resume
      a (result.catch_exception_object_throwing
           m_value exception index clauses)
  else
    '(v, evs) <-
      result.catch_exception_object_nothrow
        m_value exception index clauses ;;
    Some (promised_value.set_value promised_value.default v, evs).

(** [catches] as overload resolution selects it, run to its outcome. *)
Definition catches (clauses : list (result.clause Type_))
  : option (promised_value.t Type_ * list event) :=
  if result.throwing_overload clauses then
    throwing.resume a (result.catches_throwing m_value clauses)
  else
    '(v, evs) <- result.catches_nothrow m_value clauses ;;
    Some (promised_value.set_value promised_value.default v, evs).

End Dispatch.

(** The casts met along a declared base path from a type to [target],
    outermost first. *)
Inductive cast_path : detail.type_information -> Z -> list (Z -> Z) -> Prop :=
| cast_here (t : detail.type_information) :
    cast_path t (detail.type_id t) []
| cast_through (id : Z) (bases : list (detail.type_information * (Z -> Z)))
               (base_info : detail.type_information) (cast : Z -> Z)
               (target : Z) (casts : list (Z -> Z)) :
    In (base_info, cast) bases ->
    cast_path base_info target casts ->
    cast_path (detail.info id bases) target (cast :: casts).

(** A pointer taken through a list of casts. *)
Definition adjust (casts : list (Z -> Z)) (p : Z) : Z :=
  fold_left (fun q cast => cast q) casts p.

(** Bodies that keep to what the header asks of its callers: an
    exception is raised under the [void] allocator only, a slot handed
    to [co_yield std::tie(rethrow, slot)] holds a failure and its tag
    agrees with its union member, no error of the [throwing_exception]
    domain is raised, a null handle only comes from an allocator whose
    [allocate] is [noexcept], and no point of the body is undefined.
    What follows an await or the construction of a result has to be well
    formed for the values and slots the awaited or called coroutine can
    end with, not for others. *)
Inductive well_formed (a : allocator_kind)
  : forall Type_ : Type, throwing.body Type_ -> Prop :=
| wf_return (Type_ : Type) (v : Type_) :
    well_formed a Type_ (throwing.co_return v)
| wf_yield_exception (Type_ : Type) (allocated : bool)
                     (value : exception_object) :
    a = allocator_void ->
    well_formed a Type_ (throwing.co_yield_exception allocated value)
| wf_tie_rethrow (Type_ Other : Type) (q : promised_value.t Other) :
    promised_value.consistent q ->
    promised_value.has_value q = false ->
    well_formed a Type_ (throwing.co_yield_tie_rethrow q)
| wf_rethrow (Type_ : Type) :
    well_formed a Type_ throwing.co_yield_rethrow
| wf_error (Type_ : Type) (e : error.t) :
    error.domain e <> throwing_exception ->
    well_formed a Type_ (throwing.co_yield_error e)
| wf_statement (Type_ : Type) (ev : event) (rest : throwing.body Type_) :
    well_formed a Type_ rest ->
    well_formed a Type_ (throwing.statement ev rest)
| wf_await (Type_ Other : Type) (nested : throwing.body Other)
           (rest : Other -> throwing.body Type_) :
    well_formed a Other nested ->
    (forall p evs v,
        throwing.resume a nested = Some (p, evs) ->
        promised_value.value p = Some v ->
        well_formed a Type_ (rest v)) ->
    well_formed a Type_ (throwing.co_await (Some nested) rest)
| wf_await_null (Type_ Other : Type)
                (rest : Other -> throwing.body Type_) :
    is_noexcept_allocator a = true ->
    well_formed a Type_ (@throwing.co_await Type_ Other None rest)
| wf_make_result (Type_ Other : Type) (nested : throwing.body Other)
                 (rest : promised_value.t Other -> throwing.body Type_) :
    well_formed a Other nested ->
    (forall p evs r,
        throwing.resume a nested = Some (p, evs) ->
        throwing.invoke a (Some p) = Some r ->
        well_formed a Type_ (rest r)) ->
    well_formed a Type_ (throwing.make_result (Some nested) rest)
| wf_make_result_null (Type_ Other : Type)
                      (rest : promised_value.t Other -> throwing.body Type_) :
    is_noexcept_allocator a = true ->
    (forall r,
        throwing.invoke a None = Some r ->
        well_formed a Type_ (rest r)) ->
    well_formed a Type_ (@throwing.make_result Type_ Other None rest).

Arguments well_formed a {Type_} _.

(** A handle is well formed when it is null under a [noexcept]
    allocator or refers to a well-formed body. *)
Definition well_formed_handle (a : allocator_kind) {Type_ : Type}
           (h : throwing.t Type_) : Prop :=
  match h with
  | Some b => well_formed a b
  | None => is_noexcept_allocator a = true
  end.

(** The [static_assert]s on catch-all clauses: only the last clause may
    declare no parameter. *)
Fixpoint catch_all_only_last {Type_ : Type}
         (clauses : list (result.clause Type_)) : bool :=
  match clauses with
  | [] => true
  | [c] => true
  | c :: rest => negb (result.is_catch_all c) && catch_all_only_last rest
  end.

(** Clauses whose coroutines are well formed for every argument. *)
Definition well_formed_clause (a : allocator_kind) {Type_ : Type}
           (c : result.clause Type_) : Prop :=
  match result.function c with
  | result.returns_value _ => True
  | result.returns_throwing f =>
      forall argument, well_formed_handle a (f argument)
  end.

(** The capsules of the active exception are objects: their address is
    not null. *)
Definition capsule_addressed {Type_ : Type}
           (m_value : promised_value.t Type_) : Prop :=
  forall e, promised_value.exception m_value = Some e ->
            value_address e <> 0.

(** * Properties *)

Example main_foo_false :
  example.main 4096 false = Some (1, [executed 0; invoked 0]).
Proof. reflexivity. Qed.

Example main_foo_true :
  example.main 4096 true = Some (0, [executed 0; executed 1]).
Proof. reflexivity. Qed.

(** ** Error domains *)

(** C9: for every domain and every code, [success] depends on the code
    and the domain's success code only; it is true exactly when the code
    is the success code, hence false for every other code. *)
Theorem success_only_for_success_code :
  forall (d : error_domain.t) (code : Z),
    (error_domain.success d code = true
     <-> code = error_domain.m_success_code d) /\
    (error_domain.success d code = false
     <-> code <> error_domain.m_success_code d) /\
    (forall name' message',
        error_domain.success
          (error_domain.make_error_domain
             name' (error_domain.m_success_code d) message') code
        = error_domain.success d code).
Proof.
  intros d code. unfold error_domain.success. cbn.
  repeat split.
  - apply Z.eqb_eq.
  - intro H. now apply Z.eqb_eq.
  - apply Z.eqb_neq.
  - intro H. now apply Z.eqb_neq.
Qed.

(** ** The promised value *)

Section PromisedValue.
Context {Type_ : Type}.
Implicit Types p : promised_value.t Type_.

Lemma has_error_domain p :
  promised_value.has_error p = true <->
  exists d, promised_value.m_error_domain p = Some d
            /\ d <> throwing_exception.
Proof.
  unfold promised_value.has_error, promised_value.has_value,
    promised_value.has_exception.
  destruct (promised_value.m_error_domain p) as [d|]; cbn.
  - destruct d; cbn; split; intro H;
      try discriminate; try reflexivity;
      try (eexists; split; [reflexivity | discriminate]).
    destruct H as (d & E & N). injection E as <-. now elim N.
  - split; [discriminate | intros (d & E & _); discriminate].
Qed.

Lemma one_state p :
  (promised_value.has_value p, promised_value.has_exception p,
   promised_value.has_error p) = (true, false, false) \/
  (promised_value.has_value p, promised_value.has_exception p,
   promised_value.has_error p) = (false, true, false) \/
  (promised_value.has_value p, promised_value.has_exception p,
   promised_value.has_error p) = (false, false, true).
Proof.
  unfold promised_value.has_error, promised_value.has_value,
    promised_value.has_exception.
  destruct (promised_value.m_error_domain p) as [[]|]; cbn; auto.
Qed.

End PromisedValue.

(** C10: a default-constructed promised value reads as an error of the
    [throwing_error] domain, not as a value or an exception; whatever
    the slot holds, exactly one of the three queries is true, and their
    answers depend on the domain pointer alone. *)
Theorem default_is_sentinel_error :
  forall (Type_ : Type),
    promised_value.has_value (@promised_value.default Type_) = false /\
    promised_value.has_exception (@promised_value.default Type_) = false /\
    promised_value.has_error (@promised_value.default Type_) = true /\
    promised_value.get_error (@promised_value.default Type_)
    = Some (error.make throwing_error 0) /\
    (forall p : promised_value.t Type_,
        (promised_value.has_value p, promised_value.has_exception p,
         promised_value.has_error p) = (true, false, false) \/
        (promised_value.has_value p, promised_value.has_exception p,
         promised_value.has_error p) = (false, true, false) \/
        (promised_value.has_value p, promised_value.has_exception p,
         promised_value.has_error p) = (false, false, true)) /\
    (forall (d : domain_ptr) (s s' : promised_value.storage Type_),
        promised_value.has_value (promised_value.make d s)
        = promised_value.has_value (promised_value.make d s') /\
        promised_value.has_exception (promised_value.make d s)
        = promised_value.has_exception (promised_value.make d s') /\
        promised_value.has_error (promised_value.make d s)
        = promised_value.has_error (promised_value.make d s')).
Proof.
  intro Type_. repeat split; try reflexivity. apply one_state.
Qed.





(** ** [dyn_cast] *)

Section DynCast.
Import detail.

Lemma type_information_rect' (P : type_information -> Prop) :
  (forall id bases,
      Forall (fun entry => P (fst entry)) bases -> P (info id bases)) ->
  forall t, P t.
Proof.
  intro step.
  fix IH 1. intros [id bases]. apply step.
  induction bases as [|[b c] rest IHrest]; constructor.
  - apply IH.
  - exact IHrest.
Qed.

Lemma dyn_cast_eq base p id bases :
  dyn_cast base p (info id bases)
  = if id =? base then p else dyn_cast_bases base p bases.
Proof.
  simpl. destruct (id =? base); [reflexivity|].
  induction bases as [|[b c] rest IHrest]; simpl; [reflexivity|].
  now rewrite IHrest.
Qed.

Lemma dyn_cast_bases_first_non_null base p entries :
  dyn_cast_bases base p entries
  = first_non_null
      (map (fun entry => dyn_cast base (snd entry p) (fst entry)) entries).
Proof.
  unfold first_non_null.
  induction entries as [|[b c] rest IHrest]; simpl; [reflexivity|].
  destruct (dyn_cast base (c p) b =? 0); simpl; [exact IHrest | reflexivity].
Qed.

Lemma dyn_cast_bases_skip base p pre entries :
  Forall (fun entry => dyn_cast base (snd entry p) (fst entry) = 0) pre ->
  dyn_cast_bases base p (pre ++ entries) = dyn_cast_bases base p entries.
Proof.
  induction 1 as [|[b c] pre H0 _ IHpre]; simpl; [reflexivity|].
  simpl in H0. rewrite H0. simpl. exact IHpre.
Qed.

Lemma dyn_cast_bases_found base p entries entry :
  In entry entries ->
  dyn_cast base (snd entry p) (fst entry) <> 0 ->
  dyn_cast_bases base p entries <> 0.
Proof.
  induction entries as [|[b c] rest IHrest]; simpl; [contradiction|].
  intros [E | Hin] Hnz.
  - subst entry. simpl in Hnz. destruct (Z.eqb_spec (dyn_cast base (c p) b) 0); congruence.
  - destruct (Z.eqb_spec (dyn_cast base (c p) b) 0); auto.
Qed.

Lemma dyn_cast_no_path t :
  forall base p, ~ declared_base_path t base -> dyn_cast base p t = 0.
Proof.
  induction t as [id bases IH] using type_information_rect'.
  intros base p Hno. rewrite dyn_cast_eq.
  destruct (Z.eqb_spec id base) as [->|_].
  - elim Hno. apply (path_here (info base bases)).
  - assert (Hsub : forall b c, In (b, c) bases ->
                               ~ declared_base_path b base).
    { intros b c Hin Hp. apply Hno. eapply path_through; eauto. }
    clear Hno. induction bases as [|[b c] rest IHrest]; simpl;
      [reflexivity|].
    inversion IH as [|? ? Hb Hrest]; subst. simpl in Hb.
    rewrite (Hb base (c p)) by (apply (Hsub b c); now left).
    simpl. apply IHrest; [exact Hrest|].
    intros b' c' Hin. apply (Hsub b' c'). now right.
Qed.

Lemma dyn_cast_path t :
  non_null_casts t ->
  forall base p,
    declared_base_path t base -> p <> 0 -> dyn_cast base p t <> 0.
Proof.
  induction t as [id bases IH] using type_information_rect'.
  intros Hcasts base p Hpath Hp. rewrite dyn_cast_eq.
  destruct (Z.eqb_spec id base) as [->|Hne]; [exact Hp|].
  inversion Hpath as [t E|id' bases' b c target Hin Hsub]; subst;
    [now elim Hne|].
  inversion Hcasts as [id' bases' Hall]; subst.
  rewrite Forall_forall in IH, Hall.
  destruct (Hall _ Hin) as [Hc Hb]. simpl in Hc, Hb.
  apply (dyn_cast_bases_found base p bases (b, c) Hin). simpl.
  apply (IH _ Hin); auto.
Qed.

End DynCast.

(** C2: [dyn_cast] returns the pointer unchanged when the instance type
    is the target; otherwise it is the first non-null result over the
    declared bases, in declaration order, of the recursive search from
    the base with the pointer adjusted by that base's cast; it is null
    when no declared base path reaches the target, and non-null for a
    non-null pointer when one does.  For the chain [D -> C -> B -> A]
    the target [B] is found from [D] and the unrelated [X] is not. *)
Theorem dyn_cast_first_match :
  forall (base instance_ptr : Z) (instance_type : detail.type_information),
    detail.dyn_cast (detail.type_id instance_type) instance_ptr instance_type
    = instance_ptr /\
    detail.dyn_cast base instance_ptr instance_type
    = (if detail.type_id instance_type =? base then instance_ptr
       else first_non_null
              (map (fun entry =>
                      detail.dyn_cast base (snd entry instance_ptr)
                                      (fst entry))
                   (detail.bases_of instance_type))) /\
    (~ declared_base_path instance_type base ->
     detail.dyn_cast base instance_ptr instance_type = 0) /\
    (non_null_casts instance_type ->
     declared_base_path instance_type base ->
     instance_ptr <> 0 ->
     detail.dyn_cast base instance_ptr instance_type <> 0) /\
    detail.dyn_cast (detail.type_id example.B) instance_ptr example.D
    = instance_ptr /\
    detail.dyn_cast (detail.type_id example.X) instance_ptr example.D = 0.
Proof.
  intros base p [id bases]. simpl detail.type_id. simpl detail.bases_of.
  repeat split.
  - rewrite dyn_cast_eq, Z.eqb_refl. reflexivity.
  - rewrite dyn_cast_eq, dyn_cast_bases_first_non_null. reflexivity.
  - apply dyn_cast_no_path.
  - intros. now apply dyn_cast_path.
  - cbn. destruct (Z.eqb_spec p 0) as [->|Hp]; [reflexivity|].
    cbn. destruct (Z.eqb_spec p 0); [contradiction | reflexivity].
Qed.

(** C8: when the target is reached through several declared bases, the
    result is that of the first base, in declaration order, whose search
    is non-null, whatever the bases declared after it reach. *)
Theorem dyn_cast_first_path_wins :
  forall (base p id : Z)
         (pre post : list (detail.type_information * (Z -> Z)))
         (base_info : detail.type_information) (cast : Z -> Z),
    id <> base ->
    Forall (fun entry =>
              detail.dyn_cast base (snd entry p) (fst entry) = 0) pre ->
    detail.dyn_cast base (cast p) base_info <> 0 ->
    detail.dyn_cast base p
                    (detail.info id (pre ++ (base_info, cast) :: post))
    = detail.dyn_cast base (cast p) base_info.
Proof.
  intros base p id pre post b c Hne Hpre Hnz.
  rewrite dyn_cast_eq.
  destruct (Z.eqb_spec id base) as [E|_]; [now elim Hne|].
  rewrite dyn_cast_bases_skip by exact Hpre. simpl.
  destruct (Z.eqb_spec (detail.dyn_cast base (c p) b) 0); congruence.
Qed.

Lemma dyn_cast_first_path_wins_witness :
  detail.dyn_cast (detail.type_id example.Top) 4096 example.Bottom
  = detail.dyn_cast (detail.type_id example.Top) 4096 example.Left /\
  detail.dyn_cast (detail.type_id example.Top) 4096 example.Left = 4096 /\
  detail.dyn_cast (detail.type_id example.Top) (4096 + 16) example.Right
  = 4112.
Proof.
  split; [|split; reflexivity].
  apply (dyn_cast_first_path_wins
           3000 4096 3024 [] [(example.Right, fun p => p + 16)]
           example.Left (fun p => p)).
  - discriminate.
  - constructor.
  - discriminate.
Defined.

(** ** Awaiting *)

Section Slots.
Context {Type_ : Type}.
Implicit Types p : promised_value.t Type_.

(** Propagating a settled failure into a slot of any type. *)
Lemma propagate_settled {Other : Type} p (q : promised_value.t Other) :
  settled q ->
  promised_value.has_value q = false ->
  exists p' q',
    promised_value.propagate p q = Some (p', q') /\
    same_failure p' q /\
    promised_value.has_value p' = false /\
    settled p'.
Proof.
  intros [Hc Hr] Hv. destruct q as [[d|] s]; [|discriminate Hv].
  unfold promised_value.consistent in Hc. cbn in Hc.
  destruct d, s as [c|[e|]|v]; try contradiction; try discriminate Hr;
    cbn; do 2 eexists; repeat split.
Qed.

(** Between slots of one type the slot itself is reproduced. *)
Lemma propagate_same p (q : promised_value.t Type_) :
  settled q ->
  promised_value.has_value q = false ->
  exists q', promised_value.propagate p q = Some (q, q').
Proof.
  intros [Hc Hr] Hv. destruct q as [[d|] s]; [|discriminate Hv].
  unfold promised_value.consistent in Hc. cbn in Hc.
  destruct d, s as [c|[e|]|v]; try contradiction; try discriminate Hr;
    cbn; eexists; reflexivity.
Qed.

Lemma move_consistent p :
  promised_value.consistent p ->
  exists p', promised_value.move p = Some (p, p').
Proof.
  intro Hc. destruct p as [[d|] s];
    unfold promised_value.consistent in Hc; cbn in Hc.
  - destruct d, s; try contradiction; cbn; eexists; reflexivity.
  - destruct s; try contradiction. cbn. eexists; reflexivity.
Qed.

Lemma consistent_value p :
  promised_value.consistent p ->
  promised_value.has_value p = true ->
  exists v, p = promised_value.make None (promised_value.value_member v).
Proof.
  intros Hc Hv. destruct p as [[d|] s]; [discriminate Hv|].
  unfold promised_value.consistent in Hc. cbn in Hc.
  destruct s; try contradiction. eexists; reflexivity.
Qed.

Lemma value_has_value p v :
  promised_value.consistent p ->
  promised_value.value p = Some v ->
  p = promised_value.make None (promised_value.value_member v).
Proof.
  intros Hc Hv. destruct p as [[d|] s];
    unfold promised_value.consistent in Hc; cbn in Hc, Hv.
  - destruct d, s; try contradiction; discriminate Hv.
  - destruct s; try contradiction. cbn in Hv. congruence.
Qed.

Lemma is_rethrow_defined p :
  promised_value.consistent p ->
  exists r, promised_value.is_rethrow p = Some r.
Proof.
  intro Hc. destruct p as [[d|] s];
    unfold promised_value.consistent in Hc; cbn in Hc.
  - destruct d, s as [c|[e|]|v]; try contradiction; cbn; eexists;
      reflexivity.
  - eexists; reflexivity.
Qed.

End Slots.

(** C1 does not hold as stated: a nested computation that ends in
    [co_yield rethrow] reads as an exception, the rest of the awaiting
    body is skipped, but nothing is propagated: the awaiting slot stays
    as constructed, an error of the [throwing_error] domain. *)
Lemma await_rethrow_not_propagated :
  let nested : throwing.body unit := throwing.co_yield_rethrow in
  let outer : throwing.body Z :=
    throwing.statement (executed 0)
      (throwing.co_await (Some nested) (fun _ =>
         throwing.statement (executed 1) (throwing.co_return 0))) in
  exists value outcome,
    throwing.resume allocator_void nested = Some (value, []) /\
    promised_value.has_exception value = true /\
    promised_value.has_value value = false /\
    throwing.resume allocator_void outer = Some (outcome, [executed 0]) /\
    promised_value.has_exception outcome = false /\
    promised_value.get_error outcome = Some (error.make throwing_error 0) /\
    ~ same_failure outcome value.
Proof.
  cbn. do 2 eexists. repeat split.
  intros (H & _). discriminate H.
Qed.

(** C1, amended: when the awaited computation ends with an error or with
    an exception that holds a capsule, the awaiting body stops at the
    await: its events are those of the awaited computation, its outcome
    holds the same domain and code or the same capsule, and neither
    depends on the statements after the await.  When the awaited
    computation ends with the rethrow marker the body stops as well and
    the awaiting slot is left as constructed.  When it ends with a value
    the body continues with that value. *)
Theorem await_propagates_failure :
  forall (a : allocator_kind) (Type_ Other : Type)
         (nested : throwing.body Other) (rest : Other -> throwing.body Type_)
         (value : promised_value.t Other) (evs : list event),
    throwing.resume a nested = Some (value, evs) ->
    promised_value.consistent value ->
    (promised_value.has_value value = false ->
     promised_value.is_rethrow value = Some false ->
     exists outcome : promised_value.t Type_,
       same_failure outcome value /\
       promised_value.has_value outcome = false /\
       forall rest',
         throwing.resume a (throwing.co_await (Some nested) rest')
         = Some (outcome, evs)) /\
    (promised_value.is_rethrow value = Some true ->
     forall rest' : Other -> throwing.body Type_,
       throwing.resume a (throwing.co_await (Some nested) rest')
       = Some (promised_value.default, evs)) /\
    (forall v,
        promised_value.value value = Some v ->
        throwing.resume a (throwing.co_await (Some nested) rest)
        = ('(p, evs') <- throwing.resume a (rest v) ;;
           Some (p, evs ++ evs'))).
Proof.
  intros a Type_ Other nested rest value evs Hrun Hc.
  repeat split.
  - intros Hv Hr.
    destruct (propagate_settled (@promised_value.default Type_) value
                                (conj Hc Hr) Hv)
      as (p' & q' & Hp & Hs & Hv' & _).
    exists p'. repeat split; try apply Hs; [exact Hv'|].
    intro rest'. cbn. rewrite Hrun. cbn. rewrite Hv. cbn.
    rewrite Hr. cbn. rewrite Hp. reflexivity.
  - intros Hr rest'. cbn. rewrite Hrun. cbn.
    assert (Hv : promised_value.has_value value = false).
    { unfold promised_value.is_rethrow in Hr.
      unfold promised_value.has_value, promised_value.has_exception in *.
      destruct (promised_value.m_error_domain value) as [d|];
        [reflexivity | discriminate Hr]. }
    rewrite Hv. cbn. rewrite Hr. reflexivity.
  - intros v Hval. pose proof (value_has_value value v Hc Hval) as ->.
    cbn. rewrite Hrun. reflexivity.
Qed.

Lemma await_propagates_failure_witness :
  exists outcome : promised_value.t Z,
    promised_value.exception outcome
    = Some (make_exception_object std.runtime_error 4096) /\
    throwing.resume
      allocator_void
      (throwing.co_await
         (example.foo 4096 false)
         (fun v => throwing.statement (executed 1) (throwing.co_return 0)))
    = Some (outcome, []).
Proof.
  destruct (await_propagates_failure
              allocator_void Z Z
              (throwing.co_yield_exception
                 true (make_exception_object std.runtime_error 4096))
              (fun v => throwing.co_return 0)
              (promised_value.set_exception
                 allocator_void promised_value.default
                 (Some (make_exception_object std.runtime_error 4096)))
              [] eq_refl I) as [H _].
  destruct (H eq_refl eq_refl) as (outcome & (_ & _ & Hs) & _ & Hr).
  exists outcome. split.
  - unfold promised_value.exception. rewrite Hs. reflexivity.
  - apply Hr.
Defined.

(** ** Catching *)


Section FirstMatch.
Context {Type_ : Type}.
Variable a : allocator_kind.
Variable m_value : promised_value.t Type_.
Hypothesis m_value_settled : settled m_value.
Hypothesis m_value_failure : promised_value.has_value m_value = false.

(** Awaiting a coroutine and returning what it returned reproduces its
    settled outcome. *)
Lemma resume_await_settled (b : throwing.body Type_) p evs :
  throwing.resume a b = Some (p, evs) ->
  settled p ->
  throwing.resume a (throwing.co_await (Some b) throwing.co_return)
  = Some (p, evs).
Proof.
  intros Hrun Hp. cbn. rewrite Hrun. cbn.
  destruct (promised_value.has_value p) eqn:Hv.
  - destruct (consistent_value p (proj1 Hp) Hv) as [v ->]. cbn.
    now rewrite app_nil_r.
  - cbn. rewrite (proj2 Hp). cbn.
    destruct (propagate_same promised_value.default p Hp Hv) as [q' ->].
    reflexivity.
Qed.

Lemma resume_returned (v : Type_) evs :
  throwing.resume a (result.returned (Some (v, evs)))
  = Some (promised_value.set_value promised_value.default v, evs).
Proof.
  induction evs as [|ev evs IH]; cbn; [reflexivity|].
  cbn in IH. rewrite IH. reflexivity.
Qed.

Lemma after_clause_settled r :
  promised_value.consistent r -> settled (after_clause m_value r).
Proof.
  intro Hc. unfold after_clause.
  destruct (is_rethrow_defined r Hc) as [[] E]; rewrite E.
  - exact m_value_settled.
  - split; assumption.
Qed.

Lemma resume_call_clause index c argument r cevs :
  clause_outcome a c argument = Some (r, cevs) ->
  promised_value.consistent r ->
  throwing.resume a (result.call_clause m_value index c argument)
  = Some (after_clause m_value r, invoked index :: cevs).
Proof.
  unfold clause_outcome, result.call_clause, after_clause.
  destruct (result.function c) as [f|f]; intros Hout Hc.
  - injection Hout as <- <-. reflexivity.
  - cbn.
    destruct (match f argument with
              | Some b =>
                  '(p, evs) <- throwing.resume a b ;; Some (Some p, evs)
              | None => Some (None, [])
              end) as [[promise evs]|]; [|discriminate Hout].
    cbn in Hout |- *.
    destruct (throwing.invoke a promise) as [catch_result|];
      [|discriminate Hout].
    cbn in Hout |- *. injection Hout as -> ->.
    destruct (is_rethrow_defined r Hc) as [[] E]; rewrite E.
    + cbn.
      destruct (propagate_same promised_value.default m_value
                               m_value_settled m_value_failure)
        as [q' ->].
      cbn. now rewrite app_nil_r.
    + destruct (promised_value.has_value r) eqn:Hv; cbn.
      * destruct (consistent_value r Hc Hv) as [v ->]. cbn.
        now rewrite app_nil_r.
      * destruct (propagate_same promised_value.default r
                                 (conj Hc E) Hv) as [q' ->].
        cbn. now rewrite app_nil_r.
Qed.

End FirstMatch.

Section Walk.
Context {Type_ : Type}.
Variable a : allocator_kind.
Variable m_value : promised_value.t Type_.
Variable exception : dynamic_object.

(** A non-null address comes with type information, as in every
    [dynamic_object] a capsule returns. *)
Hypothesis exception_typed :
  address exception <> 0 -> type_id exception <> None.

Lemma cast_exception_defined CatchType :
  exists object, result.cast_exception CatchType exception = Some object.
Proof.
  unfold result.cast_exception.
  destruct (Z.eqb_spec (address exception) 0) as [E|E]; [now eexists|].
  destruct (type_id exception) as [t|] eqn:Et;
    [cbn; now eexists | now elim (exception_typed E)].
Qed.

Lemma throwing_overload_tail (c : result.clause Type_) rest :
  rest <> [] ->
  result.throwing_overload (c :: rest) = false ->
  result.is_throwing c = false /\ result.throwing_overload rest = false.
Proof.
  unfold result.throwing_overload. intros Hne H. cbn in H.
  apply orb_false_iff in H. destruct H as [H1 H2].
  apply orb_false_iff in H1. destruct H1 as [Hc Hrest].
  split; [exact Hc|]. rewrite Hrest. cbn.
  destruct rest as [|c' rest']; [now elim Hne | exact H2].
Qed.

Lemma throwing_overload_head (c : result.clause Type_) rest :
  result.throwing_overload (c :: rest) = false ->
  exists f, result.function c = result.returns_value f.
Proof.
  unfold result.throwing_overload. intro H. cbn in H.
  apply orb_false_iff in H. destruct H as [H1 _].
  apply orb_false_iff in H1. destruct H1 as [Hc _].
  unfold result.is_throwing in Hc.
  destruct (result.function c) as [f|f]; [now exists f | discriminate Hc].
Qed.

(** The clause that matches, called where it stands, gives the outcome
    of the whole walk when every clause before it fails its test. *)
Lemma walk_to_first_match pre :
  forall index c post argument outcome evs,
    Forall (fun c' => clause_matches exception c' = false) pre ->
    clause_matches exception c = true ->
    clause_argument m_value exception c = Some argument ->
    (result.is_catch_all c = true -> post = []) ->
    throwing.resume
      a (result.call_clause m_value (index + List.length pre) c argument)
    = Some (outcome, evs) ->
    settled outcome ->
    catch_exception_object a m_value exception index (pre ++ c :: post)
    = Some (outcome, evs).
Proof.
  induction pre as [|c' pre IH];
    intros index c post argument outcome evs Hpre Hm Harg Hlast Hcall Hs.
  - cbn [app List.length] in *. rewrite Nat.add_0_r in Hcall.
    unfold catch_exception_object.
    unfold clause_matches in Hm. unfold clause_argument in Harg.
    unfold result.is_catch_all in Hlast.
    destruct (result.throwing_overload (c :: post)) eqn:Ho.
    + cbn [result.catch_exception_object_throwing].
      destruct (result.declared c) as [| |CatchType].
      * rewrite (Hlast eq_refl). injection Harg as <-. exact Hcall.
      * rewrite Hm. cbn [negb].
        destruct (promised_value.get_error m_value) as [e|];
          [|discriminate Harg].
        injection Harg as <-. exact Hcall.
      * destruct (result.cast_exception CatchType exception) as [object|];
          [|discriminate Hm].
        injection Harg as <-.
        destruct (object =? 0); [discriminate Hm | exact Hcall].
    + destruct (throwing_overload_head c post Ho) as [f Hf].
      unfold result.call_clause in Hcall. rewrite Hf in Hcall.
      cbn in Hcall. injection Hcall as <- <-.
      cbn [result.catch_exception_object_nothrow]. rewrite Hf.
      destruct (result.declared c) as [| |CatchType].
      * rewrite (Hlast eq_refl). injection Harg as <-. reflexivity.
      * rewrite Hm. cbn [negb].
        destruct (promised_value.get_error m_value) as [e|];
          [|discriminate Harg].
        injection Harg as <-. reflexivity.
      * destruct (result.cast_exception CatchType exception) as [object|];
          [|discriminate Hm].
        injection Harg as <-. cbn.
        destruct (object =? 0); [discriminate Hm | reflexivity].
  - inversion Hpre as [|? ? Hc' Hpre']; subst.
    cbn [app List.length] in *. rewrite Nat.add_succ_r in Hcall.
    specialize (IH (S index) c post argument outcome evs
                   Hpre' Hm Harg Hlast Hcall Hs).
    remember (pre ++ c :: post) as rest eqn:Erest.
    assert (Hne : rest <> []) by (subst rest; now destruct pre).
    unfold clause_matches in Hc'.
    unfold catch_exception_object in IH |- *.
    destruct (result.throwing_overload (c' :: rest)) eqn:Ho.
    + cbn [result.catch_exception_object_throwing].
      assert (Hnext :
                throwing.resume
                  a (match rest with
                     | [] => throwing.co_yield_tie_rethrow m_value
                     | _ :: _ =>
                         if result.throwing_overload rest then
                           throwing.co_await
                             (Some (result.catch_exception_object_throwing
                                      m_value exception (S index) rest))
                             throwing.co_return
                         else
                           result.returned
                             (result.catch_exception_object_nothrow
                                m_value exception (S index) rest)
                     end) = Some (outcome, evs)).
      { destruct rest as [|c'' rest']; [now elim Hne|].
        destruct (result.throwing_overload (c'' :: rest')).
        - now apply resume_await_settled.
        - destruct (result.catch_exception_object_nothrow
                      m_value exception (S index) (c'' :: rest'))
            as [[v evs']|]; [|discriminate IH].
          cbn in IH. injection IH as <- <-. apply resume_returned. }
      destruct (result.declared c') as [| |CatchType].
      * discriminate Hc'.
      * rewrite Hc'. cbn [negb]. exact Hnext.
      * destruct (cast_exception_defined CatchType) as [object Eo].
        rewrite Eo in Hc' |- *.
        destruct (object =? 0); [exact Hnext | discriminate Hc'].
    + destruct (throwing_overload_tail c' rest Hne Ho) as [_ Hrest].
      destruct (throwing_overload_head c' rest Ho) as [f Hf].
      rewrite Hrest in IH.
      cbn [result.catch_exception_object_nothrow]. rewrite Hf.
      destruct (result.declared c') as [| |CatchType].
      * discriminate Hc'.
      * rewrite Hc'. cbn [negb]. exact IH.
      * destruct (cast_exception_defined CatchType) as [object Eo].
        rewrite Eo in Hc' |- *. cbn.
        destruct (object =? 0); [exact IH | discriminate Hc'].
Qed.

End Walk.


Section Catches.
Context {Type_ : Type}.
Variable a : allocator_kind.
Variable m_value : promised_value.t Type_.
Variable exception : dynamic_object.
Hypothesis m_value_settled : settled m_value.
Hypothesis m_value_failure : promised_value.has_value m_value = false.
Hypothesis exception_active :
  result.active_exception m_value = Some exception.

Lemma active_exception_typed :
  address exception <> 0 -> type_id exception <> None.
Proof.
  unfold result.active_exception in exception_active.
  destruct (promised_value.has_exception m_value).
  - destruct (promised_value.exception m_value) as [e|];
      [|discriminate exception_active].
    cbn in exception_active. injection exception_active as <-.
    discriminate.
  - injection exception_active as <-. intro H. now elim H.
Qed.

Lemma catches_walks clauses outcome evs :
  catch_exception_object a m_value exception 0 clauses
  = Some (outcome, evs) ->
  settled outcome ->
  catches a m_value clauses = Some (outcome, evs).
Proof.
  unfold catch_exception_object, catches.
  unfold result.catches_throwing, result.catches_nothrow.
  rewrite m_value_failure, exception_active. cbn [bind].
  destruct (result.throwing_overload clauses); [|auto].
  intros Hrun Hs. now apply resume_await_settled.
Qed.

Lemma matched_first pre c post argument r cevs :
  Forall (fun c' => clause_matches exception c' = false) pre ->
  clause_matches exception c = true ->
  clause_argument m_value exception c = Some argument ->
  (result.is_catch_all c = true -> post = []) ->
  clause_outcome a c argument = Some (r, cevs) ->
  promised_value.consistent r ->
  catches a m_value (pre ++ c :: post)
  = Some (after_clause m_value r, invoked (List.length pre) :: cevs).
Proof.
  intros Hpre Hm Harg Hlast Hout Hr.
  apply catches_walks;
    [|now apply after_clause_settled].
  apply (walk_to_first_match a m_value exception active_exception_typed
                             pre 0 c post argument); auto.
  - cbn [Nat.add]. now apply resume_call_clause.
  - now apply after_clause_settled.
Qed.



End Catches.





(** The catch scenarios, computed. *)

Example rethrow_restores_original :
  catches allocator_void (example.raised 4096) example.rethrowing_clauses
  = Some (example.raised 4096, [invoked 1; executed 7]).
Proof. reflexivity. Qed.

Example clause_failure_replaces_original :
  catches allocator_void (example.raised 4096) example.raising_clauses
  = Some (promised_value.set_exception
            allocator_void promised_value.default
            (Some (make_exception_object std.logic_error 8192)),
          [invoked 0]).
Proof. reflexivity. Qed.

Example unrelated_type_falls_to_catch_all :
  catches allocator_void (example.raised 4096)
          [ result.make_clause (result.catch_object example.X)
                               (result.returns_value (fun _ => 1));
            result.make_clause result.catch_all
                               (result.returns_value (fun _ => 2)) ]
  = Some (promised_value.set_value promised_value.default 2, [invoked 1]).
Proof. reflexivity. Qed.

Example unmatched_failure_propagates :
  catches allocator_void (example.raised 4096)
          [ result.make_clause (result.catch_object example.X)
                               (result.returns_value (fun _ => 1)) ]
  = Some (example.raised 4096, []).
Proof. reflexivity. Qed.

(** * Further properties *)

(** ** Running well-formed bodies *)

Lemma propagate_consistent {Type_ Other : Type}
      (p : promised_value.t Type_) (q : promised_value.t Other) :
  promised_value.consistent q ->
  promised_value.has_value q = false ->
  exists p' q',
    promised_value.propagate p q = Some (p', q') /\
    promised_value.consistent p' /\
    promised_value.consistent q' /\
    promised_value.has_value p' = false.
Proof.
  intros Hc Hv. destruct q as [[d|] s]; [|discriminate Hv].
  unfold promised_value.consistent in Hc. cbn in Hc.
  destruct d, s as [c|e|v]; try contradiction; cbn;
    do 2 eexists; repeat split.
Qed.

Lemma well_formed_runs (a : allocator_kind) (Type_ : Type)
      (b : throwing.body Type_) :
  well_formed a b ->
  exists p evs,
    throwing.resume a b = Some (p, evs) /\ promised_value.consistent p.
Proof.
  intros Hwf.
  induction Hwf as
      [ T v | T allocated value Ha | T Other q Hq Hv | T | T e He
      | T ev rest _ IH | T Other nested rest _ IHn _ IHr
      | T Other rest Ha
      | T Other nested rest _ IHn _ IHr
      | T Other rest Ha _ IHr ].
  - do 2 eexists. split; [reflexivity | exact I].
  - subst a. do 2 eexists. split; [reflexivity | exact I].
  - destruct (propagate_consistent (@promised_value.default T) q Hq Hv)
      as (p' & q' & Hp & Hc & _ & _).
    cbn. rewrite Hp. cbn. do 2 eexists. split; [reflexivity | exact Hc].
  - do 2 eexists. split; [reflexivity | exact I].
  - cbn. do 2 eexists. split; [reflexivity|].
    destruct e as [d c]. cbn in He.
    destruct d; try exact I. now elim He.
  - destruct IH as (p & evs & Hrun & Hc). cbn. rewrite Hrun. cbn.
    do 2 eexists. split; [reflexivity | exact Hc].
  - destruct IHn as (p & evs & Hrun & Hc). cbn. rewrite Hrun. cbn.
    destruct (promised_value.has_value p) eqn:Hv.
    + destruct (consistent_value p Hc Hv) as [v ->]. cbn.
      destruct (IHr _ evs v Hrun eq_refl) as (p' & evs' & Hrun' & Hc').
      rewrite Hrun'. cbn. do 2 eexists. split; [reflexivity | exact Hc'].
    + cbn. destruct (is_rethrow_defined p Hc) as [[] Er]; rewrite Er; cbn.
      * do 2 eexists. split; [reflexivity | exact I].
      * destruct (propagate_consistent (@promised_value.default T) p Hc Hv)
          as (p' & q' & Hp & Hc' & _ & _).
        rewrite Hp. cbn. do 2 eexists. split; [reflexivity | exact Hc'].
  - cbn. rewrite !Ha. cbn. rewrite ?Ha.
    do 2 eexists. split; [reflexivity | exact I].
  - destruct IHn as (p & evs & Hrun & Hc). cbn. rewrite Hrun. cbn.
    destruct (move_consistent p Hc) as [p0 Hm]. rewrite Hm. cbn.
    assert (Hi : throwing.invoke a (Some p) = Some p).
    { unfold throwing.invoke. now rewrite Hm. }
    destruct (IHr p evs p Hrun Hi) as (p' & evs' & Hrun' & Hc').
    rewrite Hrun'. cbn. do 2 eexists. split; [reflexivity | exact Hc'].
  - cbn. rewrite Ha. cbn.
    assert (Hi : throwing.invoke (Type_ := Other) a None
                 = Some (promised_value.set_error promised_value.default
                                                  not_enough_memory)).
    { unfold throwing.invoke. now rewrite Ha. }
    destruct (IHr _ Hi) as (p' & evs' & Hrun' & Hc').
    cbn in Hrun'. rewrite Hrun'. cbn.
    do 2 eexists. split; [reflexivity | exact Hc'].
Qed.


(** ** Failures no clause matches *)

Section Unmatched.
Context {Type_ : Type}.
Variable a : allocator_kind.
Variable m_value : promised_value.t Type_.
Variable exception : dynamic_object.
Hypothesis m_value_settled : settled m_value.
Hypothesis m_value_failure : promised_value.has_value m_value = false.
Hypothesis exception_typed :
  address exception <> 0 -> type_id exception <> None.

Lemma no_match_not_catch_all (c : result.clause Type_) :
  clause_matches exception c = false -> result.is_catch_all c = false.
Proof.
  unfold clause_matches, result.is_catch_all.
  destruct (result.declared c); [discriminate | reflexivity | reflexivity].
Qed.

Lemma no_match_throwing_overload (clauses : list (result.clause Type_)) :
  Forall (fun c => clause_matches exception c = false) clauses ->
  clauses <> [] ->
  result.throwing_overload clauses = true.
Proof.
  intros Hall Hne. unfold result.throwing_overload.
  assert (Hlast : result.last_is_catch_all clauses = false).
  { induction Hall as [|c rest Hc Hrest IH]; [now elim Hne|].
    destruct rest as [|c' rest'].
    - cbn. now apply no_match_not_catch_all.
    - cbn [result.last_is_catch_all]. apply IH. discriminate. }
  rewrite Hlast. apply orb_true_r.
Qed.

Lemma walk_without_match clauses :
  forall index,
    Forall (fun c => clause_matches exception c = false) clauses ->
    clauses <> [] ->
    throwing.resume
      a (result.catch_exception_object_throwing
           m_value exception index clauses)
    = Some (m_value, []).
Proof.
  induction clauses as [|c rest IH]; intros index Hall Hne;
    [now elim Hne|].
  inversion Hall as [|? ? Hc Hrest]; subst.
  cbn [result.catch_exception_object_throwing].
  assert (Hnext :
            throwing.resume
              a (match rest with
                 | [] => throwing.co_yield_tie_rethrow m_value
                 | _ :: _ =>
                     if result.throwing_overload rest then
                       throwing.co_await
                         (Some (result.catch_exception_object_throwing
                                  m_value exception (S index) rest))
                         throwing.co_return
                     else
                       result.returned
                         (result.catch_exception_object_nothrow
                            m_value exception (S index) rest)
                 end) = Some (m_value, [])).
  { destruct rest as [|c' rest'].
    - cbn.
      destruct (propagate_same promised_value.default m_value
                               m_value_settled m_value_failure)
        as [q' ->].
      reflexivity.
    - rewrite (no_match_throwing_overload (c' :: rest') Hrest)
        by discriminate.
      apply resume_await_settled; [|exact m_value_settled].
      apply IH; [exact Hrest | discriminate]. }
  unfold clause_matches in Hc.
  destruct (result.declared c) as [| |CatchType].
  - discriminate Hc.
  - rewrite Hc. cbn [negb]. exact Hnext.
  - destruct (cast_exception_defined exception exception_typed CatchType)
      as [object Eo].
    rewrite Eo in Hc |- *.
    destruct (object =? 0); [exact Hnext | discriminate Hc].
Qed.

End Unmatched.

Lemma no_match_outcome (a : allocator_kind) (Type_ : Type)
      (m_value : promised_value.t Type_) (exception : dynamic_object)
      (clauses : list (result.clause Type_)) :
  settled m_value ->
  promised_value.has_value m_value = false ->
  result.active_exception m_value = Some exception ->
  clauses <> [] ->
  Forall (fun c => clause_matches exception c = false) clauses ->
  catches a m_value clauses = Some (m_value, []).
Proof.
  intros Hs Hv Hex Hne Hall.
  pose proof (no_match_throwing_overload exception clauses Hall Hne) as Ho.
  apply (catches_walks a m_value exception Hv Hex); [|exact Hs].
  unfold catch_exception_object. rewrite Ho.
  apply walk_without_match; auto.
  now apply (active_exception_typed m_value exception).
Qed.



(** ** [catches] always has an outcome *)

Section Total.
Context {Type_ : Type}.
Variable a : allocator_kind.
Variable m_value : promised_value.t Type_.
Variable exception : dynamic_object.
Hypothesis m_value_settled : settled m_value.
Hypothesis m_value_failure : promised_value.has_value m_value = false.
Hypothesis m_value_addressed : capsule_addressed m_value.
Hypothesis exception_active :
  result.active_exception m_value = Some exception.

(** Either no clause passes its test or there is a first one that does. *)
Lemma first_match_or_none (clauses : list (result.clause Type_)) :
  Forall (fun c => clause_matches exception c = false) clauses \/
  exists pre c post,
    clauses = pre ++ c :: post /\
    Forall (fun c' => clause_matches exception c' = false) pre /\
    clause_matches exception c = true.
Proof.
  induction clauses as [|c rest IH]; [left; constructor|].
  destruct (clause_matches exception c) eqn:Hc.
  - right. exists [], c, rest. repeat split; [constructor | exact Hc].
  - destruct IH as [Hall | (pre & c' & post & -> & Hpre & Hm)].
    + left. now constructor.
    + right. exists (c :: pre), c', post.
      repeat split; [now constructor | exact Hm].
Qed.

Lemma null_address_is_error :
  address exception = 0 ->
  exists e, promised_value.get_error m_value = Some e.
Proof.
  intro H0. unfold result.active_exception in exception_active.
  destruct m_value_settled as [Hc _].
  destruct (promised_value.has_exception m_value) eqn:Hx.
  - destruct (promised_value.exception m_value) as [e|] eqn:He;
      [|discriminate exception_active].
    cbn in exception_active. injection exception_active as <-.
    now elim (m_value_addressed e He).
  - destruct m_value as [[d|] s]; [|discriminate m_value_failure].
    unfold promised_value.consistent in Hc. cbn in Hc.
    destruct d, s; try contradiction; try discriminate Hx;
      cbn; eexists; reflexivity.
Qed.

Lemma match_has_argument (c : result.clause Type_) :
  clause_matches exception c = true ->
  exists argument, clause_argument m_value exception c = Some argument.
Proof.
  unfold clause_matches, clause_argument.
  destruct (result.declared c) as [| |CatchType]; intro Hm.
  - now eexists.
  - apply Z.eqb_eq in Hm.
    destruct (null_address_is_error Hm) as [e ->]. now eexists.
  - destruct (result.cast_exception CatchType exception) as [object|];
      [now eexists | discriminate Hm].
Qed.

Lemma catch_all_ends_list (pre : list (result.clause Type_)) c post :
  catch_all_only_last (pre ++ c :: post) = true ->
  result.is_catch_all c = true -> post = [].
Proof.
  induction pre as [|c' pre IH]; intros Hlast Hc.
  - destruct post as [|c'' post]; [reflexivity|].
    cbn in Hlast. rewrite Hc in Hlast. discriminate Hlast.
  - apply IH; [|exact Hc].
    cbn [app catch_all_only_last] in Hlast.
    destruct (pre ++ c :: post) eqn:E; [now destruct pre|].
    apply andb_true_iff in Hlast. apply Hlast.
Qed.

Lemma clause_has_outcome (c : result.clause Type_) argument :
  well_formed_clause a c ->
  exists r cevs,
    clause_outcome a c argument = Some (r, cevs) /\
    promised_value.consistent r.
Proof.
  unfold well_formed_clause, clause_outcome.
  destruct (result.function c) as [f|f]; intro Hwf.
  - do 2 eexists. split; [reflexivity | exact I].
  - specialize (Hwf argument). unfold well_formed_handle in Hwf.
    destruct (f argument) as [b|].
    + destruct (well_formed_runs a Type_ b Hwf) as (p & evs & Hrun & Hc).
      rewrite Hrun. cbn.
      destruct (move_consistent p Hc) as [p0 Hm]. rewrite Hm. cbn.
      do 2 eexists. split; [reflexivity | exact Hc].
    + cbn. rewrite Hwf. cbn.
      do 2 eexists. split; [reflexivity | exact I].
Qed.

End Total.

(** X3: on a failed result whose capsule, if any, is an object, and with
    clauses that satisfy the [static_assert]s and are well formed,
    [catches] has an outcome: it meets no undefined behaviour and leaves
    a slot that holds a value or a failure, never the rethrow marker. *)
Theorem catches_has_outcome :
  forall (a : allocator_kind) (Type_ : Type)
         (m_value : promised_value.t Type_)
         (clauses : list (result.clause Type_)),
    settled m_value ->
    promised_value.has_value m_value = false ->
    capsule_addressed m_value ->
    clauses <> [] ->
    catch_all_only_last clauses = true ->
    Forall (well_formed_clause a) clauses ->
    exists outcome evs,
      catches a m_value clauses = Some (outcome, evs) /\
      settled outcome.
Proof.
  intros a Type_ m_value clauses Hs Hv Haddr Hne Hlast Hwf.
  assert (Hex : exists exception,
             result.active_exception m_value = Some exception).
  { unfold result.active_exception.
    destruct Hs as [Hc Hr]. unfold promised_value.is_rethrow in Hr.
    unfold promised_value.exception.
    destruct (promised_value.has_exception m_value); [|now eexists].
    destruct (promised_value.m_exception m_value) as [[e|]|];
      try discriminate Hr. cbn. now eexists. }
  destruct Hex as [exception Hex].
  destruct (first_match_or_none exception clauses)
    as [Hall | (pre & c & post & -> & Hpre & Hm)].
  - exists m_value, [].
    split; [|exact Hs].
    now apply (no_match_outcome a Type_ m_value exception).
  - destruct (match_has_argument m_value exception Hs Hv Haddr Hex c Hm)
      as [argument Harg].
    rewrite Forall_forall in Hwf.
    destruct (clause_has_outcome a c argument) as (r & cevs & Hout & Hr).
    { apply Hwf. apply in_or_app. right. now left. }
    exists (after_clause m_value r), (invoked (List.length pre) :: cevs).
    split.
    + apply (matched_first a m_value exception Hs Hv Hex
                           pre c post argument); auto.
      now apply catch_all_ends_list with (pre := pre).
    + now apply after_clause_settled.
Qed.

Lemma catches_has_outcome_witness :
  exists outcome evs,
    catches allocator_void (example.raised 4096) example.rethrowing_clauses
    = Some (outcome, evs) /\
    settled outcome.
Proof.
  apply (catches_has_outcome
           allocator_void Z (example.raised 4096)
           example.rethrowing_clauses).
  - split; [exact I | reflexivity].
  - reflexivity.
  - intros e He. cbn in He. injection He as <-. discriminate.
  - discriminate.
  - reflexivity.
  - constructor; [exact I|]. constructor; [|constructor].
    intro argument. cbn. apply wf_statement. apply wf_rethrow.
Defined.

(** X4: the [catches] overload that returns a plain value always returns
    one on a failed result, and calls exactly one clause to get it: the
    first clause that passes its test. *)
Theorem catches_nothrow_calls_one :
  forall (Type_ : Type) (m_value : promised_value.t Type_)
         (clauses : list (result.clause Type_)),
    settled m_value ->
    promised_value.has_value m_value = false ->
    capsule_addressed m_value ->
    result.throwing_overload clauses = false ->
    catch_all_only_last clauses = true ->
    exists exception pre c post f argument,
      result.active_exception m_value = Some exception /\
      clauses = pre ++ c :: post /\
      Forall (fun c' => clause_matches exception c' = false) pre /\
      clause_matches exception c = true /\
      result.function c = result.returns_value f /\
      clause_argument m_value exception c = Some argument /\
      result.catches_nothrow m_value clauses
      = Some (f argument, [invoked (List.length pre)]).
Proof.
  intros Type_ m_value clauses Hs Hv Haddr Ho Hlast.
  assert (Hex : exists exception,
             result.active_exception m_value = Some exception).
  { unfold result.active_exception.
    destruct Hs as [Hc Hr]. unfold promised_value.is_rethrow in Hr.
    unfold promised_value.exception.
    destruct (promised_value.has_exception m_value); [|now eexists].
    destruct (promised_value.m_exception m_value) as [[e|]|];
      try discriminate Hr. cbn. now eexists. }
  destruct Hex as [exception Hex].
  destruct (first_match_or_none exception clauses)
    as [Hall | (pre & c & post & -> & Hpre & Hm)].
  - destruct clauses as [|c rest]; [discriminate Ho|].
    rewrite (no_match_throwing_overload exception (c :: rest) Hall) in Ho
      by discriminate.
    discriminate Ho.
  - destruct (match_has_argument m_value exception Hs Hv Haddr Hex c Hm)
      as [argument Harg].
    assert (Hf : exists f, result.function c = result.returns_value f).
    { unfold result.throwing_overload in Ho.
      apply orb_false_iff in Ho. destruct Ho as [Hno _].
      rewrite existsb_app in Hno. apply orb_false_iff in Hno.
      destruct Hno as [_ Hno]. cbn in Hno.
      apply orb_false_iff in Hno. destruct Hno as [Hc _].
      unfold result.is_throwing in Hc.
      destruct (result.function c) as [f|f]; [now exists f | discriminate]. }
    destruct Hf as [f Hf].
    exists exception, pre, c, post, f, argument.
    repeat split; auto.
    pose proof (matched_first
                  allocator_void m_value exception Hs Hv Hex
                  pre c post argument
                  (promised_value.set_value promised_value.default
                                            (f argument)) []
                  Hpre Hm Harg
                  (catch_all_ends_list pre c post Hlast)) as Hrun.
    unfold clause_outcome in Hrun. rewrite Hf in Hrun.
    specialize (Hrun eq_refl I).
    unfold catches in Hrun. rewrite Ho in Hrun.
    destruct (result.catches_nothrow m_value (pre ++ c :: post))
      as [[v evs]|]; [|discriminate Hrun].
    cbn in Hrun. injection Hrun as Hv' Hevs. subst. reflexivity.
Qed.

Lemma catches_nothrow_calls_one_witness :
  exists exception pre c post f argument,
    result.active_exception (example.raised 4096) = Some exception /\
    example.ordered_clauses = pre ++ c :: post /\
    Forall (fun c' => clause_matches exception c' = false) pre /\
    clause_matches exception c = true /\
    result.function c = result.returns_value f /\
    clause_argument (example.raised 4096) exception c = Some argument /\
    result.catches_nothrow (example.raised 4096) example.ordered_clauses
    = Some (f argument, [invoked (List.length pre)]).
Proof.
  apply (catches_nothrow_calls_one
           Z (example.raised 4096) example.ordered_clauses).
  - split; [exact I | reflexivity].
  - reflexivity.
  - intros e He. cbn in He. injection He as <-. discriminate.
  - reflexivity.
  - reflexivity.
Defined.

(** ** The bodies [catches] and [try_catch] build *)


Section BuiltBodies.
Context {Type_ : Type}.
Variable a : allocator_kind.
Variable m_value : promised_value.t Type_.
Variable exception : dynamic_object.
Hypothesis m_value_settled : settled m_value.
Hypothesis m_value_failure : promised_value.has_value m_value = false.
Hypothesis m_value_addressed : capsule_addressed m_value.
Hypothesis exception_active :
  result.active_exception m_value = Some exception.






End BuiltBodies.




(** ** Who frees the capsule *)

(** X5: [propagate] and the move constructor hand the capsule over: the
    receiving slot frees on destruction exactly what the source would
    have freed, and the source is left with nothing to free. *)
Theorem capsule_changes_owner :
  forall (Type_ Other : Type) (p : promised_value.t Type_)
         (other : promised_value.t Other),
    promised_value.consistent other ->
    (promised_value.has_value other = false ->
     exists p' other',
       promised_value.propagate p other = Some (p', other') /\
       promised_value.destructor p' = promised_value.destructor other /\
       promised_value.destructor other' = Some []) /\
    (exists other',
        promised_value.move other = Some (other, other') /\
        promised_value.destructor other' = Some []).
Proof.
  intros Type_ Other p [d s] Hc.
  unfold promised_value.consistent in Hc. cbn in Hc.
  split.
  - intro Hv. destruct d as [d|]; [|discriminate Hv].
    destruct d, s as [c|e|v]; try contradiction; cbn;
      do 2 eexists; repeat split.
  - destruct d as [d|].
    + destruct d, s as [c|e|v]; try contradiction; cbn;
        eexists; repeat split.
    + destruct s; try contradiction. cbn. eexists; repeat split.
Qed.

Lemma capsule_changes_owner_witness :
  exists (p' : promised_value.t Z) (other' : promised_value.t unit),
    promised_value.propagate
      (@promised_value.default Z)
      (promised_value.set_exception
         allocator_void (@promised_value.default unit)
         (Some (make_exception_object std.runtime_error 4096)))
    = Some (p', other') /\
    promised_value.destructor p'
    = Some [make_exception_object std.runtime_error 4096] /\
    promised_value.destructor other' = Some [].
Proof.
  destruct (capsule_changes_owner
              Z unit promised_value.default
              (promised_value.set_exception
                 allocator_void promised_value.default
                 (Some (make_exception_object std.runtime_error 4096)))
              I) as [H _].
  destruct (H eq_refl) as (p' & other' & Hp & Hd & Hd').
  exists p', other'. repeat split; [exact Hp | | exact Hd'].
  rewrite Hd. reflexivity.
Defined.

(** X6: move assignment between two distinct slots makes the target
    equal to what the source was, frees exactly the capsule the target
    held before, and leaves the source with nothing to free. *)
Theorem move_assign_transfers :
  forall (Type_ : Type) (this other : promised_value.t Type_),
    promised_value.consistent this ->
    promised_value.consistent other ->
    exists other' freed,
      promised_value.move_assign this other = Some (other, other', freed) /\
      promised_value.destructor this = Some freed /\
      promised_value.destructor other' = Some [] /\
      promised_value.consistent other'.
Proof.
  intros Type_ [d s] [d' s'] Hc Hc'.
  unfold promised_value.consistent in Hc, Hc'. cbn in Hc, Hc'.
  destruct d as [d|], d' as [d'|].
  - destruct d, s as [c|e|v]; try contradiction;
      destruct d', s' as [c'|e'|v']; try contradiction; cbn;
        do 2 eexists; repeat split.
  - destruct s' as [c'|e'|v']; try contradiction.
    destruct d, s as [c|e|v]; try contradiction; cbn;
      do 2 eexists; repeat split.
  - destruct s as [c|e|v]; try contradiction.
    destruct d', s' as [c'|e'|v']; try contradiction; cbn;
      do 2 eexists; repeat split.
  - destruct s as [c|e|v]; try contradiction.
    destruct s' as [c'|e'|v']; try contradiction. cbn.
    do 2 eexists; repeat split.
Qed.

Lemma move_assign_transfers_witness :
  exists other' freed,
    promised_value.move_assign
      (example.raised 4096)
      (promised_value.set_error promised_value.default not_enough_memory)
    = Some (promised_value.set_error promised_value.default
                                     not_enough_memory,
            other', freed) /\
    freed = [make_exception_object std.runtime_error 4096].
Proof.
  destruct (move_assign_transfers
              Z (example.raised 4096)
              (promised_value.set_error promised_value.default
                                        not_enough_memory)
              I I) as (other' & freed & Hm & Hd & _).
  exists other', freed. split; [exact Hm|].
  cbn in Hd. injection Hd as <-. reflexivity.
Defined.

(** ** Coroutine frames that could not be allocated *)

(** X7: under an allocator whose [allocate] is [noexcept], a coroutine
    whose frame could not be allocated behaves, wherever it is awaited,
    turned into a result or tried, as a coroutine that raises the error
    [not_enough_memory] and runs nothing; under the other allocators a
    null handle has no defined behaviour. *)
Theorem null_handle_is_not_enough_memory :
  forall (Type_ Other : Type) (rest : Other -> throwing.body Type_)
         (after : promised_value.t Other -> throwing.body Type_)
         (clauses : list (result.clause Type_)),
    throwing.resume allocator_noexcept
                    (@throwing.co_await Type_ Other None rest)
    = Some (promised_value.set_error promised_value.default
                                     not_enough_memory, []) /\
    throwing.resume allocator_noexcept
                    (@throwing.co_await Type_ Other None rest)
    = throwing.resume
        allocator_noexcept
        (throwing.co_await
           (Some (throwing.co_yield_error not_enough_memory)) rest) /\
    throwing.resume allocator_noexcept
                    (@throwing.make_result Type_ Other None after)
    = throwing.resume
        allocator_noexcept
        (throwing.make_result
           (Some (throwing.co_yield_error not_enough_memory)) after) /\
    try_catch_nothrow allocator_noexcept None clauses
    = try_catch_nothrow
        allocator_noexcept
        (Some (throwing.co_yield_error not_enough_memory)) clauses /\
    throwing.resume allocator_noexcept (try_catch_throwing None clauses)
    = throwing.resume
        allocator_noexcept
        (try_catch_throwing
           (Some (throwing.co_yield_error not_enough_memory)) clauses) /\
    (forall a,
        is_noexcept_allocator a = false ->
        throwing.resume a (@throwing.co_await Type_ Other None rest)
        = None /\
        try_catch_nothrow a None clauses = None).
Proof.
  intros Type_ Other rest after clauses.
  repeat split; try reflexivity;
    destruct a; try discriminate; reflexivity.
Qed.

(** ** Awaiting a result *)



(** ** The pointer [dyn_cast] returns *)

Lemma dyn_cast_bases_chosen base p entries :
  detail.dyn_cast_bases base p entries <> 0 ->
  exists base_info cast,
    In (base_info, cast) entries /\
    detail.dyn_cast_bases base p entries
    = detail.dyn_cast base (cast p) base_info.
Proof.
  induction entries as [|[b c] rest IH]; cbn; intro Hnz;
    [now elim Hnz|].
  destruct (Z.eqb_spec (detail.dyn_cast base (c p) b) 0) as [E|E].
  - destruct (IH Hnz) as (b' & c' & Hin & Heq).
    exists b', c'. split; [now right | exact Heq].
  - exists b, c. split; [now left | reflexivity].
Qed.

(** X9: a non-null result of [dyn_cast] is the instance pointer taken
    through the casts of a declared base path from the instance type to
    the target, one cast per step. *)
Theorem dyn_cast_adjusts_along_path :
  forall (instance_type : detail.type_information) (base instance_ptr : Z),
    detail.dyn_cast base instance_ptr instance_type <> 0 ->
    exists casts,
      cast_path instance_type base casts /\
      detail.dyn_cast base instance_ptr instance_type
      = adjust casts instance_ptr.
Proof.
  induction instance_type as [id bases IH] using type_information_rect'.
  intros base p. rewrite dyn_cast_eq.
  destruct (Z.eqb_spec id base) as [->|_].
  - intros _. exists []. split; [|reflexivity].
    apply (cast_here (detail.info base bases)).
  - intro Hnz.
    destruct (dyn_cast_bases_chosen base p bases Hnz)
      as (b & c & Hin & Heq).
    rewrite Heq in Hnz |- *.
    rewrite Forall_forall in IH.
    destruct (IH _ Hin base (c p) Hnz) as (casts & Hpath & Hres).
    exists (c :: casts). split.
    + now apply (cast_through id bases b c base casts).
    + simpl fst in Hres. rewrite Hres. reflexivity.
Qed.

Lemma dyn_cast_adjusts_along_path_witness :
  exists casts,
    cast_path example.Bottom (detail.type_id example.Top) casts /\
    detail.dyn_cast (detail.type_id example.Top) 4096 example.Bottom
    = adjust casts 4096.
Proof.
  apply (dyn_cast_adjusts_along_path
           example.Bottom (detail.type_id example.Top) 4096).
  discriminate.
Defined.

(** ** Raising and catching *)

(** X10: under the [void] allocator, the only one under which an
    exception can be raised, an exception raised by the try clause and
    caught by a clause declared for its exact type reaches that clause
    with the address of the raised value; the clause is the only one
    called. *)
Theorem raised_exception_reaches_its_clause :
  forall (Type_ : Type) (value : exception_object)
         (f g : result.catch_argument -> Type_),
    value_address value <> 0 ->
    try_catch_nothrow
      allocator_void (Some (throwing.co_yield_exception true value))
      [ result.make_clause (result.catch_object (value_type value))
                           (result.returns_value f);
        result.make_clause result.catch_all (result.returns_value g) ]
    = Some (f (result.object_argument (value_address value)), [invoked 0]).
Proof.
  intros Type_ [t object] f g Hobj. cbn in Hobj.
  assert (E : (object =? 0) = false) by now apply Z.eqb_neq.
  assert (Hself : detail.dyn_cast (detail.type_id t) object t = object).
  { destruct t as [id bases]. rewrite dyn_cast_eq. cbn [detail.type_id].
    now rewrite Z.eqb_refl. }
  cbn -[Z.eqb detail.dyn_cast detail.type_id];
    unfold result.cast_exception;
    cbn -[Z.eqb detail.dyn_cast detail.type_id];
    rewrite E; cbn -[Z.eqb detail.dyn_cast detail.type_id];
    rewrite Hself, E; reflexivity.
Qed.

Lemma raised_exception_reaches_its_clause_witness :
  try_catch_nothrow
    allocator_void
    (Some (throwing.co_yield_exception
             true (make_exception_object std.runtime_error 4096)))
    [ result.make_clause (result.catch_object std.runtime_error)
                         (result.returns_value (fun _ => 1));
      result.make_clause result.catch_all
                         (result.returns_value (fun _ => 2)) ]
  = Some (1, [invoked 0]).
Proof.
  apply (raised_exception_reaches_its_clause
           Z
           (make_exception_object std.runtime_error 4096)
           (fun _ => 1) (fun _ => 2)).
  discriminate.
Defined.

(** X11: an error raised by the try clause passes every typed clause
    and reaches the first error clause with the same domain and code;
    that clause is the only one called. *)
Theorem raised_error_reaches_error_clause :
  forall (a : allocator_kind) (Type_ : Type) (e : error.t)
         (typed : list (detail.type_information
                        * (result.catch_argument -> Type_)))
         (f g : result.catch_argument -> Type_),
    error.domain e <> throwing_exception ->
    try_catch_nothrow
      a (Some (throwing.co_yield_error e))
      (map (fun tc => result.make_clause (result.catch_object (fst tc))
                                         (result.returns_value (snd tc)))
           typed
       ++ [ result.make_clause result.catch_error (result.returns_value f);
            result.make_clause result.catch_all (result.returns_value g) ])
    = Some (f (result.error_argument e), [invoked (List.length typed)]).
Proof.
  intros a Type_ [d c] typed f g Hd. cbn in Hd.
  set (clauses := map _ typed ++ _).
  set (p := promised_value.make (Type_ := Type_)
              (Some d) (promised_value.error_code_member c)).
  assert (Hm : promised_value.move p = Some (p, p)).
  { subst p. destruct d; try reflexivity. now elim Hd. }
  assert (Hx : promised_value.has_exception p = false).
  { subst p. destruct d; try reflexivity. now elim Hd. }
  unfold try_catch_nothrow.
  change (throwing.resume a (throwing.co_yield_error (error.make d c)))
    with (Some (p, @nil event)).
  cbn [bind]. unfold throwing.invoke. rewrite Hm. cbn [bind].
  unfold result.catches_nothrow, result.active_exception.
  rewrite Hx.
  change (promised_value.has_value p) with false. cbn [bind].
  assert (Hwalk : forall index,
             result.catch_exception_object_nothrow
               p null_dynamic_object index clauses
             = Some (f (result.error_argument (error.make d c)),
                     [invoked (index + List.length typed)])).
  { subst clauses. induction typed as [|[t h] typed IH]; intro index.
    - cbn. now rewrite Nat.add_0_r.
    - cbn [map app List.length fst snd].
      cbn [result.catch_exception_object_nothrow result.function
             result.declared].
      cbn [result.cast_exception address null_dynamic_object Z.eqb bind].
      rewrite IH. now rewrite Nat.add_succ_r. }
  rewrite Hwalk. reflexivity.
Qed.

Lemma raised_error_reaches_error_clause_witness :
  try_catch_nothrow
    allocator_void
    (Some (throwing.co_yield_error not_enough_memory))
    [ result.make_clause (result.catch_object std.exception)
                         (result.returns_value (fun _ => 1));
      result.make_clause result.catch_error
                         (result.returns_value (fun _ => 2));
      result.make_clause result.catch_all
                         (result.returns_value (fun _ => 3)) ]
  = Some (2, [invoked 1]).
Proof.
  apply (raised_error_reaches_error_clause
           allocator_void Z not_enough_memory
           [(std.exception, fun _ => 1)] (fun _ => 2) (fun _ => 3)).
  discriminate.
Defined.

(** ** The exceptions and the error domain of the header *)

Lemma std_exception_is_base (t : detail.type_information) (p : Z) :
  In t std.declared ->
  detail.dyn_cast (detail.type_id std.exception) p t = p.
Proof.
  intro Hin. cbn in Hin.
  repeat (destruct Hin as [<-|Hin]; [|]);
    try contradiction;
    cbn; destruct (Z.eqb_spec p 0) as [->|Hp]; try reflexivity;
    cbn; destruct (Z.eqb_spec p 0); try contradiction; reflexivity.
Qed.

(** X12: an exception of any type the header registers, raised by the
    try clause (under the [void] allocator, the only one under which an
    exception can be raised), is caught by a clause declared for
    [std::exception]: that clause is called, with a non-null pointer,
    and no other. *)
Theorem std_exception_clause_catches_all :
  forall (Type_ : Type)
         (t : detail.type_information) (object : Z)
         (f g : result.catch_argument -> Type_),
    In t std.declared ->
    object <> 0 ->
    exists q,
      q <> 0 /\
      try_catch_nothrow
        allocator_void
        (Some (throwing.co_yield_exception
                   true (make_exception_object t object)))
        [ result.make_clause (result.catch_object std.exception)
                             (result.returns_value f);
          result.make_clause result.catch_all (result.returns_value g) ]
      = Some (f (result.object_argument q), [invoked 0]).
Proof.
  intros Type_ t object f g Hin Hobj.
  exists object. split; [exact Hobj|].
  assert (E : (object =? 0) = false) by now apply Z.eqb_neq.
  pose proof (std_exception_is_base t object Hin) as Hbase.
  cbn -[Z.eqb detail.dyn_cast detail.type_id std.exception];
    unfold result.cast_exception;
    cbn -[Z.eqb detail.dyn_cast detail.type_id std.exception];
    rewrite E; cbn -[Z.eqb detail.dyn_cast detail.type_id std.exception];
    rewrite Hbase, E; reflexivity.
Qed.

Lemma std_exception_clause_catches_all_witness :
  exists q,
    q <> 0 /\
    try_catch_nothrow
      allocator_void
      (Some (throwing.co_yield_exception
               true (make_exception_object std.out_of_range 4096)))
      [ result.make_clause (result.catch_object std.exception)
                           (result.returns_value (fun _ => 1));
        result.make_clause result.catch_all
                           (result.returns_value (fun _ => 2)) ]
    = Some (1, [invoked 0]).
Proof.
  apply (std_exception_clause_catches_all
           Z std.out_of_range 4096
           (fun _ => 1) (fun _ => 2)).
  - cbn. tauto.
  - discriminate.
Defined.

(** X13: whatever numbers the platform gives the enumerators, the
    [std::errc] domain has a non-empty message for every code, the
    success code and codes that are no enumerator included, and an error
    of that domain is a failure exactly when its code is not 0; the two
    placeholder domains have the empty message for every code. *)
Theorem errc_message_never_empty :
  forall (enumerator : Z -> option errc.t) (user : nat -> error_domain.t)
         (code : Z),
    error_message enumerator user (error.make std_errc code)
    <> EmptyString /\
    (error_failure enumerator user (error.make std_errc code) = true
     <-> code <> 0) /\
    error_message enumerator user (error.make throwing_error code)
    = EmptyString /\
    error_message enumerator user (error.make throwing_exception code)
    = EmptyString.
Proof.
  intros enumerator user code.
  unfold error_message, error_failure, error_domain.success. cbn.
  repeat split.
  - destruct (enumerator code) as [[]|]; discriminate.
  - intro H. apply negb_true_iff in H. now apply Z.eqb_neq.
  - intro H. apply negb_true_iff. now apply Z.eqb_neq.
Qed.

(** X14: [get_error] after [set_error] reads the error that was set and
    the slot never reads as a value; it reads as an error, with tag and
    union member in agreement, exactly when the domain of the error is
    not the [throwing_exception] placeholder. *)
Theorem set_error_read_back :
  forall (Type_ : Type) (p : promised_value.t Type_) (e : error.t),
    promised_value.get_error (promised_value.set_error p e) = Some e /\
    promised_value.has_value (promised_value.set_error p e) = false /\
    (promised_value.has_error (promised_value.set_error p e) = true
     <-> error.domain e <> throwing_exception) /\
    (promised_value.consistent (promised_value.set_error p e)
     <-> error.domain e <> throwing_exception).
Proof.
  intros Type_ p [d c]. cbn. repeat split.
  - destruct d; cbn; intro H; discriminate.
  - intro H. destruct d; try reflexivity. now elim H.
  - unfold promised_value.consistent. cbn.
    destruct d; intro H; try discriminate. contradiction.
  - unfold promised_value.consistent. cbn.
    intro H. destruct d; try exact I. now elim H.
Qed.

(** ** [try_catch] and the example program *)




(** X16: the program of [zpp.cc].  When [foo] raises, the greeting is
    printed, the statement after the await is not, the clause for
    [std::exception] is the one called and [main] returns 1; when [foo]
    returns, both statements run, no clause is called and [main]
    returns 0. *)
Theorem main_returns :
  forall (object : Z) (success : bool),
    object <> 0 ->
    example.main object success
    = if success then Some (0, [executed 0; executed 1])
      else Some (1, [executed 0; invoked 0]).
Proof.
  intros object success Hobj.
  destruct success; [reflexivity|].
  assert (E : (object =? 0) = false) by now apply Z.eqb_neq.
  assert (Hbase : detail.dyn_cast (detail.type_id std.exception) object
                                  std.runtime_error = object).
  { apply std_exception_is_base. cbn. tauto. }
  unfold example.main, example.try_clause, example.foo,
    example.catch_clauses.
  cbn -[Z.eqb detail.dyn_cast detail.type_id std.exception
              std.runtime_error].
  unfold result.cast_exception.
  cbn -[Z.eqb detail.dyn_cast detail.type_id std.exception
              std.runtime_error].
  rewrite E.
  cbn -[Z.eqb detail.dyn_cast detail.type_id std.exception
              std.runtime_error].
  rewrite Hbase, E. reflexivity.
Qed.

Lemma main_returns_witness :
  example.main 4096 false = Some (1, [executed 0; invoked 0]).
Proof.
  apply (main_returns 4096 false). discriminate.
Defined.


